(** * URLManager: the redirect resolver, the resolution store and the
      line-set utility of the server, embedded and verified.

    Sources embedded here:
    - the storage module: class [MemStorage];
    - the routes module: function [followRedirects] and the handlers
      registered by [registerRoutes].  Line numbers are those of the
      routes module.

    Conventions of the embedding.
    - A JavaScript string is a [string]; every [ascii] stands for one code
      unit below 256.
    - A JavaScript number that only ever holds an integer (identifiers,
      millisecond timestamps, HTTP status codes, counts) is a [Z].
    - The platform (network [fetch], the WHATWG [URL] class, the zod URL
      validator, the clock) is not code of the repository: it is a
      parameter of the definitions that call it. *)

From Stdlib Require Import String Ascii List ZArith Lia Bool DecimalString.
From Stdlib Require Import Sorting.Sorted Sorting.Permutation.
From Equations Require Import Equations.
Import ListNotations.

#[local] Open Scope string_scope.
#[local] Open Scope list_scope.
#[local] Open Scope Z_scope.

(* ================================================================= *)
(** ** JavaScript built-ins used by the sources *)

Module Js.

(** [s.startsWith(p)] *)
Definition startsWith (s p : string) : bool := String.prefix p s.

(** Truthiness of a string: only the empty string is falsy. *)
Definition truthy (s : string) : bool :=
  match s with
  | EmptyString => false
  | String _ _ => true
  end.

(** [Array.prototype.sort(comparefn)].  The sort is stable, and
    [comparefn a b > 0] asks for [a] to be placed after [b].  For a
    consistent comparator the outcome of a stable sort does not depend on
    the algorithm; the embedding inserts from the right, an element going
    past exactly those elements that the comparator puts strictly before
    it. *)
Section Sort.
Context {A : Type} (comparefn : A -> A -> Z).

Fixpoint sort_insert (x : A) (l : list A) : list A :=
  match l with
  | [] => [x]
  | y :: l' =>
      if comparefn y x <? 0 then y :: sort_insert x l' else x :: y :: l'
  end.

Fixpoint array_sort (l : list A) : list A :=
  match l with
  | [] => []
  | x :: l' => sort_insert x (array_sort l')
  end.
End Sort.

(** [Array.prototype.some] *)
Definition array_some {A : Type} (f : A -> bool) (l : list A) : bool :=
  existsb f l.

(** A number (an integer here) inside a template literal. *)
Definition toString (n : Z) : string := NilZero.string_of_int (Z.to_int n).

(** The line feed, ['\n']. *)
Definition LF : ascii := "010"%char.

(** [s.split(sep)] for a separator of one code unit. *)
Fixpoint split (sep : ascii) (s : string) : list string :=
  match s with
  | EmptyString => [EmptyString]
  | String c s' =>
      if Ascii.eqb c sep then EmptyString :: split sep s'
      else match split sep s' with
           | piece :: pieces => String c piece :: pieces
           | [] => [String c EmptyString]
           end
  end.

(** White space and line terminators of ECMAScript among the code units
    below 256: TAB, LF, VT, FF, CR, SP and NBSP. *)
Definition isWhiteSpace (c : ascii) : bool :=
  let n := N_of_ascii c in
  ((9 <=? n) && (n <=? 13) || (n =? 32) || (n =? 160))%N.

Fixpoint trimStart (s : string) : string :=
  match s with
  | EmptyString => EmptyString
  | String c s' => if isWhiteSpace c then trimStart s' else s
  end.

Fixpoint trimEnd (s : string) : string :=
  match s with
  | EmptyString => EmptyString
  | String c s' =>
      match trimEnd s' with
      | EmptyString => if isWhiteSpace c then EmptyString else String c EmptyString
      | t => String c t
      end
  end.

(** [s.trim()] *)
Definition trim (s : string) : string := trimEnd (trimStart s).

(** [s.length] *)
Definition length (s : string) : Z := Z.of_nat (String.length s).

(** [new Set(iterable)] followed by [Array.from]: a [Set] keeps its
    elements in the order of their first insertion, and [add] of an element
    that is already there changes nothing. *)
Definition set_add (s : list string) (x : string) : list string :=
  if existsb (String.eqb x) s then s else s ++ [x].

Definition new_Set (l : list string) : list string := fold_left set_add l [].

End Js.

(* ================================================================= *)
(** ** The storage module *)

Module Storage.

(** [type ResolvedUrl]: the row type of the [resolved_urls] table.  The
    timestamp is the value of [Date.getTime()], milliseconds. *)
Record ResolvedUrl : Type := mkResolvedUrl {
  id : Z;
  originalUrl : string;
  resolvedUrl : string;
  timestamp : Z
}.

(** [Map<number, ResolvedUrl>].  A JavaScript [Map] iterates in the order
    in which keys were first inserted, and [getAllResolvedUrls] depends
    on that order: the map is the list of its entries in that order. *)
Definition NumMap : Type := list (Z * ResolvedUrl).

(** [Map.prototype.set]: an existing key keeps its place, a new key goes
    last. *)
Fixpoint map_set (m : NumMap) (k : Z) (v : ResolvedUrl) : NumMap :=
  match m with
  | [] => [(k, v)]
  | (k', v') :: m' =>
      if k' =? k then (k, v) :: m' else (k', v') :: map_set m' k v
  end.

(** [Array.from(m.values())] *)
Definition map_values (m : NumMap) : list ResolvedUrl := map snd m.

(** [Map.prototype.clear] *)
Definition map_clear (_ : NumMap) : NumMap := [].

(** The private fields of [class MemStorage]. *)
Record MemStorage : Type := mkMemStorage {
  resolvedUrls : NumMap;
  currentId : Z
}.

(** [constructor()] *)
Definition constructor : MemStorage :=
  {| resolvedUrls := []; currentId := 1 |}.

(** [resolveAndStoreUrl(originalUrl, resolvedUrl)].  [now] is what
    [new Date()] reads from the clock.  The new state and the record that
    is returned. *)
Definition resolveAndStoreUrl (this : MemStorage) (now : Z)
    (originalUrl resolvedUrl : string) : MemStorage * ResolvedUrl :=
  let id := currentId this in
  let resolvedUrlEntry :=
    {| id := id;
       originalUrl := originalUrl;
       resolvedUrl := resolvedUrl;
       timestamp := now |} in
  ({| resolvedUrls := map_set (resolvedUrls this) id resolvedUrlEntry;
      currentId := id + 1 |},
   resolvedUrlEntry).

(** The comparator of [getAllResolvedUrls]:
    [(a, b) => b.timestamp.getTime() - a.timestamp.getTime()] *)
Definition byTimestampDesc (a b : ResolvedUrl) : Z :=
  timestamp b - timestamp a.

(** [getAllResolvedUrls()] *)
Definition getAllResolvedUrls (this : MemStorage) : list ResolvedUrl :=
  Js.array_sort byTimestampDesc (map_values (resolvedUrls this)).

(** [clearAllResolvedUrls()] *)
Definition clearAllResolvedUrls (this : MemStorage) : MemStorage :=
  {| resolvedUrls := map_clear (resolvedUrls this);
     currentId := currentId this |}.

(** [checkUrlExists(resolvedUrl)] *)
Definition checkUrlExists (this : MemStorage) (resolvedUrl' : string) : bool :=
  let urlsArray := map_values (resolvedUrls this) in
  Js.array_some (fun url => String.eqb (resolvedUrl url) resolvedUrl') urlsArray.

(** *** Histories of one store *)

(** The two mutating operations, with what each takes from outside. *)
Inductive Op : Type :=
| OpStore (now : Z) (originalUrl resolvedUrl : string)
| OpClear.

(** One operation: the new state and the identifier it issued, if any. *)
Definition apply_op (this : MemStorage) (o : Op) : MemStorage * list Z :=
  match o with
  | OpStore now o' r =>
      let '(this', entry) := resolveAndStoreUrl this now o' r in
      (this', [id entry])
  | OpClear => (clearAllResolvedUrls this, [])
  end.

(** A sequence of operations: the final state and the identifiers issued,
    in the order in which they were issued. *)
Fixpoint run (this : MemStorage) (ops : list Op) : MemStorage * list Z :=
  match ops with
  | [] => (this, [])
  | o :: ops' =>
      let '(this1, ids1) := apply_op this o in
      let '(this2, ids2) := run this1 ops' in
      (this2, ids1 ++ ids2)
  end.

(** The states one [MemStorage] instance can be in. *)
Definition reachable (this : MemStorage) : Prop :=
  exists ops, fst (run constructor ops) = this.

End Storage.

(* ================================================================= *)
(** ** The routes module *)

Module Routes.
Import Storage.

(** *** The platform *)

Inductive Method : Type := HEAD | GET.

(** What [fetch] and [new URL] can throw, as far as the sources tell
    thrown values apart: an [Error] with its [message], or something that
    is not an [Error]. *)
Inductive Thrown : Type :=
| JsError (message : string)
| NonError.

(** What the [catch] block of a handler can get: the [ZodError] of the
    schema with its issues, or one of the above. *)
Inductive Caught : Type :=
| ZodError (errors : list string)
| Other (e : Thrown).

(** The second argument of [fetch]. *)
Inductive RedirectMode : Type := Follow | Manual.

Record RequestInit : Type := mkRequestInit {
  method : Method;
  redirect : RedirectMode;
  headers : list (string * string)
}.

(** What the sources read of a [Response]: [status] and
    [headers.get('location')], which is [null] without that header. *)
Record Response : Type := mkResponse {
  status : Z;
  location : option string
}.

(** What the sources read of a [URL] object. *)
Record URL : Type := mkURL {
  protocol : string;
  host : string;
  href : string
}.

(** The platform the server runs on.  [fetch] acts on the state of the
    network and either rejects with a thrown value or resolves to a
    response; [URL_new input base] is [new URL(input)] without a base and
    [new URL(input, base)] with one, and throws on what it cannot parse;
    [urlResolveSchema_parse] is zod's [urlResolveSchema.parse] on a
    request body, with the issues of a body it rejects.  Every call
    settles: a [fetch] that takes too long is one that rejects. *)
Class Platform : Type := {
  World : Type;
  fetch : World -> string -> RequestInit -> World * (Thrown + Response);
  URL_new : string -> option string -> Thrown + URL;
  Body : Type;
  urlResolveSchema_parse : Body -> list string + string
}.

(** A request the resolver sent: the URL and the options. *)
Definition Probe : Type := (string * RequestInit)%type.

Definition userAgent : string :=
  "Mozilla/5.0 (Windows NT 10.0; Win64; x64) AppleWebKit/537.36 (KHTML, like Gecko) Chrome/91.0.4472.124 Safari/537.36".

(** The options of both [fetch] calls of [followRedirects]. *)
Definition probeInit (m : Method) : RequestInit :=
  {| method := m;
     redirect := Manual;
     headers := [("User-Agent", userAgent)] |}.

Definition probe (m : Method) (url : string) : Probe := (url, probeInit m).

(** *** followRedirects *)

(** How a block of the loop body ends. *)
Inductive Step : Type :=
| Continue (currentUrl : string)
| Return (value : string)
| Throw (e : Thrown).

(** The two errors [followRedirects] throws itself. *)
Definition TransportFailure (cause : string) : Thrown :=
  JsError ("Failed to resolve URL: " ++ cause)%string.

Definition TooManyRedirects (maxRedirects : Z) : Thrown :=
  JsError ("Too many redirects (max " ++ Js.toString maxRedirects ++ ")")%string.

(** Line 78:
    [secondError instanceof Error ? secondError.message : 'Unknown error'] *)
Definition causeOf (secondError : Thrown) : string :=
  match secondError with
  | JsError message => message
  | NonError => "Unknown error"
  end.

(** Lines 12-14: [// Ensure URL has protocol]. *)
Definition ensureProtocol (url : string) : string :=
  if negb (Js.startsWith url "http://") && negb (Js.startsWith url "https://")
  then ("https://" ++ url)%string
  else url.

Section Resolver.
Context {P : Platform}.

(** Lines 31-40, and again 62-70: the new [currentUrl] for a truthy
    [location]. *)
Definition nextUrl (currentUrl location : string) : Thrown + string :=
  if Js.startsWith location "/" then
    match URL_new currentUrl None with
    | inl e => inl e
    | inr urlObj => inr (protocol urlObj ++ "//" ++ host urlObj ++ location)%string
    end
  else if Js.startsWith location "http" then
    inr location
  else
    match URL_new currentUrl None with
    | inl e => inl e
    | inr urlObj =>
        match URL_new location (Some (href urlObj)) with
        | inl e => inl e
        | inr resolved => inr (href resolved)
        end
    end.

(** Lines 27-47, and again 59-76: what follows a [fetch] that
    resolved. *)
Definition onResponse (currentUrl : string) (response : Response) : Step :=
  if (300 <=? status response) && (status response <? 400) then
    match location response with
    | Some location =>
        if Js.truthy location then
          match nextUrl currentUrl location with
          | inl e => Throw e
          | inr next => Continue next
          end
        else Return currentUrl
    | None => Return currentUrl
    end
  else Return currentUrl.

(** The body of one [try] block: the [fetch] and what follows it. *)
Definition attempt (w : World) (m : Method) (currentUrl : string)
  : World * Step :=
  let '(w', r) := fetch w currentUrl (probeInit m) in
  (w', match r with
       | inl e => Throw e
       | inr response => onResponse currentUrl response
       end).

(** Lines 17-80: the body of the [while] loop, with the probes it
    sent. *)
Definition iteration (w : World) (currentUrl : string)
  : World * list Probe * Step :=
  match attempt w HEAD currentUrl with
  | (w1, Throw _) =>
      (* catch (error): If HEAD fails, try GET request *)
      match attempt w1 GET currentUrl with
      | (w2, Throw secondError) =>
          (w2, [probe HEAD currentUrl; probe GET currentUrl],
           Throw (TransportFailure (causeOf secondError)))
      | (w2, s) => (w2, [probe HEAD currentUrl; probe GET currentUrl], s)
      end
  | (w1, s) => (w1, [probe HEAD currentUrl], s)
  end.

(** Lines 16-83: the [while] loop and the [throw] after it.  The result
    is the state of the network afterwards, the probes sent and how the
    function completes. *)
Equations? loop (maxRedirects : Z) (w : World) (currentUrl : string)
    (redirectCount : Z) : World * list Probe * (Thrown + string)
    by wf (Z.to_nat (maxRedirects - redirectCount)) lt :=
  loop maxRedirects w currentUrl redirectCount
    with Z_lt_dec redirectCount maxRedirects := {
    | left _ with iteration w currentUrl := {
        | (w', sent, Continue next) =>
            let '(w'', sent', completion) :=
              loop maxRedirects w' next (redirectCount + 1) in
            (w'', sent ++ sent', completion)
        | (w', sent, Return value) => (w', sent, inr value)
        | (w', sent, Throw e) => (w', sent, inl e) }
    | right _ => (w, [], inl (TooManyRedirects maxRedirects)) }.
Proof. lia. Qed.

(** [followRedirects(url, maxRedirects)] *)
Definition followRedirects (w : World) (url : string) (maxRedirects : Z)
  : World * list Probe * (Thrown + string) :=
  let currentUrl := ensureProtocol url in
  let redirectCount := 0 in
  loop maxRedirects w currentUrl redirectCount.

End Resolver.

(** The default of the parameter [maxRedirects]. *)
Definition defaultMaxRedirects : Z := 10.

(** *** The handlers of registerRoutes *)

(** [type FileAnalysis] of the shared schema. *)
Record FileAnalysis : Type := mkFileAnalysis {
  totalLines : Z;
  uniqueLines : Z;
  duplicateLines : Z;
  urls : list string
}.

(** The JSON bodies the handlers send. *)
Inductive Payload : Type :=
| PRecord (result : ResolvedUrl)
| PConflict (message resolvedUrl : string)
| PInvalid (message : string) (errors : list string)
| PMessage (message : string)
| PAnalysis (analysis : FileAnalysis).

(** A reply: [res.status(code).json(payload)], the status being 200 when
    the handler does not set it. *)
Record Reply : Type := mkReply {
  code : Z;
  payload : Payload
}.

Section ResolveUrl.
Context {P : Platform}.

(** Lines 90-106: the [try] block of the handler of
    [POST /api/resolve-url].  [now] is what the clock shows when the
    record is created. *)
Definition resolveUrlTry (storage : MemStorage) (w : World) (now : Z)
    (body : Body) : MemStorage * World * list Probe * (Caught + Reply) :=
  match urlResolveSchema_parse body with
  | inl errors => (storage, w, [], inl (ZodError errors))
  | inr url =>
      match followRedirects w url defaultMaxRedirects with
      | (w', sent, inl e) => (storage, w', sent, inl (Other e))
      | (w', sent, inr resolvedUrl) =>
          (* Check if URL already exists to prevent duplicates *)
          let exists_ := checkUrlExists storage resolvedUrl in
          if exists_ then
            (storage, w', sent,
             inr {| code := 409;
                    payload := PConflict "URL already exists in the list"
                                         resolvedUrl |})
          else
            let '(storage', result) :=
              resolveAndStoreUrl storage now url resolvedUrl in
            (storage', w', sent,
             inr {| code := 200; payload := PRecord result |})
      end
  end.

(** Lines 107-118: the [catch] block. *)
Definition resolveUrlCatch (error : Caught) : Reply :=
  match error with
  | ZodError errors =>
      {| code := 400; payload := PInvalid "Invalid URL format" errors |}
  | Other (JsError message) =>
      {| code := 500; payload := PMessage message |}
  | Other NonError =>
      {| code := 500; payload := PMessage "Failed to resolve URL" |}
  end.

(** [POST /api/resolve-url] *)
Definition resolveUrl (storage : MemStorage) (w : World) (now : Z)
    (body : Body) : MemStorage * World * list Probe * Reply :=
  match resolveUrlTry storage w now body with
  | (storage', w', sent, inl error) =>
      (storage', w', sent, resolveUrlCatch error)
  | (storage', w', sent, inr reply) => (storage', w', sent, reply)
  end.
End ResolveUrl.

(** Lines 153 and 179: the lines of one text. *)
Definition linesOf (content : string) : list string :=
  filter (fun line => 0 <? Js.length line)
         (map (fun line => Js.trim line) (Js.split Js.LF content)).

(** Lines 154-161 and 183-190: the reply for the lines collected. *)
Definition analysisOf (lines : list string) : Reply :=
  let uniqueLines := Js.new_Set lines in
  {| code := 200;
     payload := PAnalysis
       {| totalLines := Z.of_nat (List.length lines);
          uniqueLines := Z.of_nat (List.length uniqueLines);
          duplicateLines :=
            Z.of_nat (List.length lines) - Z.of_nat (List.length uniqueLines);
          urls := uniqueLines |} |}.

(** [POST /api/analyze-file].  [content] is the field of that name of the
    request body: [None] when it is absent or not a string. *)
Definition analyzeFile (content : option string) : Reply :=
  match content with
  | None => {| code := 400; payload := PMessage "File content is required" |}
  | Some content =>
      if negb (Js.truthy content) then
        {| code := 400; payload := PMessage "File content is required" |}
      else analysisOf (linesOf content)
  end.

(** [POST /api/merge-files].  [files] is the field of that name of the
    request body: [None] when it is absent or not an array.  The elements
    are strings, as [fileMergeSchema] declares them. *)
Definition mergeFiles (files : option (list string)) : Reply :=
  match files with
  | None => {| code := 400; payload := PMessage "Files array is required" |}
  | Some files =>
      let allLines :=
        fold_left (fun allLines fileContent => allLines ++ linesOf fileContent)
                  files [] in
      analysisOf allLines
  end.

End Routes.

(* ================================================================= *)
(** ** The statements of the specification, in its own words *)

Module Spec.
Import Storage Routes.

(** The line-set transform: split each blob on line breaks, trim each
    line, discard the empty lines. *)
Definition lines (blobs : list string) : list string :=
  flat_map (fun blob =>
              filter (fun line => negb (String.eqb line ""))
                     (map Js.trim (Js.split Js.LF blob)))
           blobs.

(** The unique lines in first-occurrence order: a line stays where it
    first occurs, and its later occurrences go. *)
Fixpoint firstOccurrences (l : list string) : list string :=
  match l with
  | [] => []
  | x :: l' => x :: filter (fun y => negb (String.eqb y x)) (firstOccurrences l')
  end.

Definition lineSet (blobs : list string) : FileAnalysis :=
  let total := Z.of_nat (List.length (lines blobs)) in
  let unique := firstOccurrences (lines blobs) in
  {| totalLines := total;
     uniqueLines := Z.of_nat (List.length unique);
     duplicateLines := total - Z.of_nat (List.length unique);
     urls := unique |}.

(** The order of [listAll] as the specification words it: most recent
    first, and of two records with equal timestamps the one with the
    higher identifier first. *)
Definition listedBefore (a b : ResolvedUrl) : Prop :=
  timestamp b < timestamp a \/ (timestamp a = timestamp b /\ id b < id a).

(** An absolute URL starts with a scheme: a letter, then letters, digits,
    [+], [-] or [.], then a colon. *)
Definition isAlpha (c : ascii) : bool :=
  let n := N_of_ascii c in
  ((65 <=? n) && (n <=? 90) || (97 <=? n) && (n <=? 122))%N.

Definition isSchemeChar (c : ascii) : bool :=
  let n := N_of_ascii c in
  (isAlpha c || (48 <=? n) && (n <=? 57) || (n =? 43) || (n =? 45) || (n =? 46))%N.

Fixpoint schemeRest (s : string) : bool :=
  match s with
  | EmptyString => false
  | String c s' =>
      if Ascii.eqb c ":" then true
      else if isSchemeChar c then schemeRest s' else false
  end.

Definition startsWithScheme (s : string) : bool :=
  match s with
  | EmptyString => false
  | String c s' => isAlpha c && schemeRest s'
  end.

(** The next current URL for a Location header as the specification
    words it: an absolute URL as it is, a root-relative path on the scheme
    and host of the current URL, anything else resolved relative to the
    current URL. *)
Definition nextUrl {P : Platform} (currentUrl location : string)
  : Thrown + string :=
  if startsWithScheme location then
    inr location
  else if Js.startsWith location "/" then
    match URL_new currentUrl None with
    | inl e => inl e
    | inr urlObj => inr (protocol urlObj ++ "//" ++ host urlObj ++ location)%string
    end
  else
    match URL_new location (Some currentUrl) with
    | inl e => inl e
    | inr resolved => inr (href resolved)
    end.

End Spec.

(* ================================================================= *)
(** ** A small platform, for the examples

    It is no model of the URL standard: its [URL] class takes the [http:]
    and [https:] URLs made of a host and a path, and relative references
    without dot segments, query or fragment, and gives on them what the
    standard gives; it refuses everything else. *)

Module Sample.
Import Routes.

(** [s] up to the first [c], and the rest from that [c] on. *)
Fixpoint break (c : ascii) (s : string) : string * string :=
  match s with
  | EmptyString => (EmptyString, EmptyString)
  | String d s' =>
      if Ascii.eqb d c then (EmptyString, s)
      else let '(before, rest) := break c s' in (String d before, rest)
  end.

(** A path up to and including its last slash. *)
Fixpoint directory (path : string) : string :=
  match path with
  | EmptyString => EmptyString
  | String c path' =>
      match directory path' with
      | EmptyString => if Ascii.eqb c "/" then "/" else EmptyString
      | d => String c d
      end
  end.

Definition drop (n : nat) (s : string) : string :=
  String.substring n (String.length s - n) s.

(** An [http:] or [https:] URL made of a host and a path: what [new URL]
    makes of it.  Nothing else parses. *)
Definition parseAbsolute (input : string) : option (string * string * string) :=
  let parts (scheme : string) (rest : string) :=
    let '(h, path) := break "/" rest in
    match h with
    | EmptyString => None
    | _ => Some (scheme, h, match path with EmptyString => "/" | _ => path end)
    end in
  if Js.startsWith input "https://" then parts "https:" (drop 8 input)
  else if Js.startsWith input "http://" then parts "http:" (drop 7 input)
  else None.

Definition mkUrl (scheme h path : string) : URL :=
  {| protocol := scheme;
     host := h;
     href := (scheme ++ "//" ++ h ++ path)%string |}.

(** [new URL(input)] and [new URL(input, base)] on such URLs: a relative
    reference replaces the path of the base from its root or from its
    last slash. *)
Definition sample_URL_new (input : string) (base : option string)
  : Thrown + URL :=
  match parseAbsolute input, base with
  | Some (scheme, h, path), _ => inr (mkUrl scheme h path)
  | None, None => inl (JsError "Invalid URL")
  | None, Some base =>
      match parseAbsolute base with
      | None => inl (JsError "Invalid URL")
      | Some (scheme, h, path) =>
          if Spec.startsWithScheme input || Js.startsWith input "//" then
            inl (JsError "Invalid URL")
          else if Js.startsWith input "/" then inr (mkUrl scheme h input)
          else inr (mkUrl scheme h (directory path ++ input)%string)
      end
  end.

(** A scripted network: the state is the list of the answers still to
    come, one per request; past the script every request is refused. *)
Definition sample_fetch (w : list (Thrown + Response)) (_ : string)
    (_ : RequestInit) : list (Thrown + Response) * (Thrown + Response) :=
  match w with
  | [] => ([], inl (JsError "fetch failed"))
  | answer :: w' => (w', answer)
  end.

(** A request body is the text of its [url] field, valid when [new URL]
    takes it. *)
Definition sample_parse (body : string) : list string + string :=
  match sample_URL_new body None with
  | inl _ => inl ["Please enter a valid URL"]
  | inr _ => inr body
  end.

#[export] Instance platform : Platform := {|
  World := list (Thrown + Response);
  fetch := sample_fetch;
  URL_new := sample_URL_new;
  Body := string;
  urlResolveSchema_parse := sample_parse
|}.

Definition redirectTo (target : string) : Thrown + Response :=
  inr {| status := 302; location := Some target |}.

Definition ok : Thrown + Response :=
  inr {| status := 200; location := None |}.

Definition refused (cause : string) : Thrown + Response :=
  inl (JsError cause).

(** The text of the example of the specification: the lines [a], an empty
    one, [a], [b], [b] between blanks, and [c]. *)
Definition newline : string := String Js.LF EmptyString.

Definition blob : string :=
  ("a" ++ newline ++ newline ++ "a" ++ newline ++ "b" ++ newline
       ++ "  b  " ++ newline ++ "c")%string.

End Sample.

(* ================================================================= *)
(** ** Notions the statements below are made of *)

Module Props.
Import Storage Routes.

(** The order [getAllResolvedUrls] lists in: most recent first, and of two
    records with equal timestamps the one with the lower identifier
    first. *)
Definition listedBefore (a b : ResolvedUrl) : Prop :=
  timestamp b < timestamp a \/ (timestamp a = timestamp b /\ id a < id b).

(** The records created at the millisecond [t]. *)
Definition createdAt (t : Z) (r : ResolvedUrl) : bool := timestamp r =? t.

(** What holds of every state of a store: keys are the identifiers of
    their records, identifiers grow along the insertion order, and all
    are below the counter. *)
Record store_inv (this : MemStorage) : Prop := {
  inv_keys : Forall (fun kv => fst kv = id (snd kv)) (resolvedUrls this);
  inv_order : StronglySorted (fun a b => id a < id b)
                             (map_values (resolvedUrls this));
  inv_below : Forall (fun v => id v < currentId this)
                     (map_values (resolvedUrls this))
}.

(** The iterations of the loop behind a list of probes: every iteration
    starts with its one HEAD probe. *)
Definition isHead (p : Probe) : bool :=
  match method (snd p) with
  | HEAD => true
  | GET => false
  end.

Definition iterations (sent : list Probe) : Z :=
  Z.of_nat (List.length (filter isHead sent)).

(** The Location a redirect response is followed to: the status is in
    300-399 and there is a Location header that is not empty. *)
Definition redirectLocation (r : Response) : option string :=
  match location r with
  | Some l =>
      if (300 <=? status r) && (status r <? 400) && Js.truthy l
      then Some l else None
  | None => None
  end.

(** An uppercase letter, [A] to [Z]. *)
Definition isUpper (c : ascii) : bool :=
  let n := N_of_ascii c in ((65 <=? n) && (n <=? 90))%N.

Section Hops.
Context {P : Platform}.

(** The response one iteration gets at [u]: that of its HEAD probe, or,
    when the HEAD probe failed at the transport level, that of its GET
    probe.  With it, the state of the network afterwards and the probes
    sent. *)
Inductive answered : World -> string -> World -> list Probe -> Response -> Prop :=
| answered_head (w : World) (u : string) (w1 : World) (r : Response) :
    fetch w u (probeInit HEAD) = (w1, inr r) ->
    answered w u w1 [probe HEAD u] r
| answered_get (w : World) (u : string) (w1 : World) (e : Thrown)
               (w2 : World) (r : Response) :
    fetch w u (probeInit HEAD) = (w1, inl e) ->
    fetch w1 u (probeInit GET) = (w2, inr r) ->
    answered w u w2 [probe HEAD u; probe GET u] r.

(** [redirects w u n w' u' sent]: starting at [u] the resolver gets [n]
    redirect responses in a row, each followed to the next URL, and is
    at [u'] afterwards. *)
Inductive redirects : World -> string -> nat -> World -> string -> list Probe -> Prop :=
| redirects_none (w : World) (u : string) : redirects w u 0 w u []
| redirects_next (w : World) (u : string) (w1 : World) (sent : list Probe)
                 (r : Response) (l next : string) (n : nat)
                 (w2 : World) (u2 : string) (sent2 : list Probe) :
    answered w u w1 sent r ->
    redirectLocation r = Some l ->
    nextUrl u l = inr next ->
    redirects w1 next n w2 u2 sent2 ->
    redirects w u (S n) w2 u2 (sent ++ sent2).
End Hops.

End Props.

(* ================================================================= *)
(** ** The routes module: the other two handlers, and the server as a
       whole *)

Module Api.
Import Storage Routes.

(** Lines 122-131: [GET /api/resolved-urls].  [getAllResolvedUrls] throws
    nothing, so the [catch] block is never entered: the reply is status
    200 with the array. *)
Definition listResolvedUrls (storage : MemStorage) : Z * list ResolvedUrl :=
  let urls := getAllResolvedUrls storage in
  (200, urls).

(** Lines 134-143: [DELETE /api/resolved-urls]. *)
Definition clearResolvedUrls (storage : MemStorage) : MemStorage * Reply :=
  let storage' := clearAllResolvedUrls storage in
  (storage', {| code := 200; payload := PMessage "All resolved URLs cleared" |}).

Section Server.
Context {P : Platform}.

(** The requests that act on the store, with what each brings along. *)
Inductive Request : Type :=
| PostResolveUrl (now : Z) (body : Body)
| GetResolvedUrls
| DeleteResolvedUrls.

(** The requests served one after the other by the one [storage] object
    of the storage module. *)
Definition serve (state : MemStorage * World) (request : Request)
  : MemStorage * World :=
  let '(storage, w) := state in
  match request with
  | PostResolveUrl now body =>
      let '(storage', w', _, _) := resolveUrl storage w now body in
      (storage', w')
  | GetResolvedUrls => (storage, w)
  | DeleteResolvedUrls => (fst (clearResolvedUrls storage), w)
  end.

Definition serveAll (w : World) (requests : list Request) : MemStorage * World :=
  fold_left serve requests (constructor, w).

End Server.

End Api.

(* ================================================================= *)
(** ** The client: what its pages compute *)

Module Client.
Import Storage Routes.

(** [Array.prototype.join(separator)] on strings. *)
Fixpoint join (separator : string) (l : list string) : string :=
  match l with
  | [] => EmptyString
  | [x] => x
  | x :: rest => (x ++ separator ++ join separator rest)%string
  end.

(** [Array.prototype.filter] with a predicate on the index only. *)
Fixpoint filterByIndex {A : Type} (keep : Z -> bool) (i : Z) (l : list A)
  : list A :=
  match l with
  | [] => []
  | x :: l' =>
      if keep i then x :: filterByIndex keep (i + 1) l'
      else filterByIndex keep (i + 1) l'
  end.

(** The home page, [getTimeAgo(timestamp)].  [now] and [timestamp] are the
    two [getTime()] values, milliseconds; on integers [Math.floor] of a
    quotient is the integer quotient. *)
Definition getTimeAgo (now timestamp : Z) : string :=
  let diffMs := now - timestamp in
  let diffMins := diffMs / 60000 in
  if diffMins <? 1 then "just now"
  else if diffMins <? 60 then
    (Js.toString diffMins ++ " minute" ++ (if (1 <? diffMins)%Z then "s" else "")
       ++ " ago")%string
  else
    let diffHours := diffMins / 60 in
    if diffHours <? 24 then
      (Js.toString diffHours ++ " hour" ++ (if (1 <? diffHours)%Z then "s" else "")
         ++ " ago")%string
    else
      let diffDays := diffHours / 24 in
      (Js.toString diffDays ++ " day" ++ (if (1 <? diffDays)%Z then "s" else "")
         ++ " ago")%string.

(** The home page, [downloadResolvedUrls]: the name and the content of the
    file it offers, nothing when the list is empty. *)
Definition downloadResolvedUrls (resolvedUrls : list ResolvedUrl)
    (filename : string) : option (string * string) :=
  if Z.of_nat (List.length resolvedUrls) =? 0 then None
  else
    let downloadFilename :=
      if Js.truthy (Js.trim filename) then Js.trim filename else "links.txt" in
    let content := join (String Js.LF EmptyString)
                        (map (fun link => resolvedUrl link) resolvedUrls) in
    Some (downloadFilename, content).

(** The file-merger page, [removeFile(index)]: the list of files and the
    merge result afterwards.  The test on [files.length] reads the list as
    it was before the removal. *)
Definition removeFile {A : Type} (index : Z) (files : list A)
    (mergeResult : option FileAnalysis) : list A * option FileAnalysis :=
  (filterByIndex (fun i => negb (i =? index)) 0 files,
   if Z.of_nat (List.length files) =? 1 then None else mergeResult).

(** The duplicate-checker page, [downloadCleanedFile], lines 87-93: the
    filter whose predicate keeps the lines it has seen in a [Set]. *)
Fixpoint filterUnseen (seen : list string) (allLines : list string)
  : list string :=
  match allLines with
  | [] => []
  | line :: rest =>
      if existsb (String.eqb line) seen then filterUnseen seen rest
      else line :: filterUnseen (Js.set_add seen line) rest
  end.

(** [downloadCleanedFile]: the content of the file it offers, from the
    text of the uploaded file and the analysis the server sent. *)
Definition cleanedContent (preserveOrder : bool) (text : string)
    (analysis : FileAnalysis) : string :=
  if preserveOrder then
    let allLines :=
      filter (fun line => 0 <? Js.length line)
             (map (fun line => Js.trim line) (Js.split Js.LF text)) in
    let uniqueLines := filterUnseen [] allLines in
    join (String Js.LF EmptyString) uniqueLines
  else
    join (String Js.LF EmptyString) (urls analysis).

(** The text-to-file page, [analyzeText]: the analysis it sets, nothing
    when it refuses the text. *)
Definition analyzeText (textInput : string) : option FileAnalysis :=
  if negb (Js.truthy (Js.trim textInput)) then None
  else
    let lines :=
      filter (fun line => 0 <? Js.length line)
             (map (fun line => Js.trim line) (Js.split Js.LF textInput)) in
    let uniqueLines := Js.new_Set lines in
    Some {| totalLines := Z.of_nat (List.length lines);
            uniqueLines := Z.of_nat (List.length uniqueLines);
            duplicateLines :=
              Z.of_nat (List.length lines) - Z.of_nat (List.length uniqueLines);
            urls := uniqueLines |}.

(** The text-to-file page, [downloadFile], and the file-merger page,
    [downloadMergedFile]: the content of the file offered. *)
Definition downloadContent (analysis : FileAnalysis) : string :=
  join (String Js.LF EmptyString) (urls analysis).

End Client.

(* ================================================================= *)
(** ** More notions for the statements *)

Module Shapes.
Import Storage Routes.

(** The lists of probes made of iterations: a HEAD probe, alone or with a
    GET probe to the same URL right after it, both with the options of
    [probeInit]. *)
Inductive hops : list Probe -> Prop :=
| hops_none : hops []
| hops_head (u : string) (rest : list Probe) :
    hops rest -> hops (probe HEAD u :: rest)
| hops_head_get (u : string) (rest : list Probe) :
    hops rest -> hops (probe HEAD u :: probe GET u :: rest).

(** The text [getTimeAgo] makes of a count and a unit. *)
Definition ago (n : Z) (unit : string) : string :=
  (Js.toString n ++ " " ++ unit ++ (if (1 <? n)%Z then "s" else "") ++ " ago")%string.

(** What every state of the server's store satisfies: the operations of
    the store lead to it, and no two records have one resolved URL. *)
Definition served (storage : MemStorage) : Prop :=
  reachable storage /\
  NoDup (map resolvedUrl (map_values (resolvedUrls storage))).

(** A string of white space only. *)
Fixpoint blank (s : string) : bool :=
  match s with
  | EmptyString => true
  | String c s' => Js.isWhiteSpace c && blank s'
  end.

(** A string without a line feed in it. *)
Fixpoint oneLine (s : string) : bool :=
  match s with
  | EmptyString => true
  | String c s' => negb (Ascii.eqb c Js.LF) && oneLine s'
  end.

End Shapes.

Import Storage Routes.

(* ================================================================= *)
(** ** The store *)

Section StorageFacts.

Lemma map_set_fresh (m : NumMap) (k : Z) (v : ResolvedUrl) :
  Forall (fun kv => fst kv < k) m -> map_set m k v = m ++ [(k, v)].
Proof.
  induction 1 as [| [k' v'] m' Hk _ IH]; simpl; [reflexivity|].
  simpl in Hk. destruct (Z.eqb_spec k' k); [lia|]. now rewrite IH.
Qed.

Lemma store_inv_fresh (this : MemStorage) :
  Props.store_inv this ->
  Forall (fun kv => fst kv < currentId this) (resolvedUrls this).
Proof.
  intros [Hk _ Hb]. unfold map_values in Hb. rewrite Forall_map in Hb.
  rewrite Forall_forall in *. intros kv Hin.
  rewrite (Hk kv Hin). now apply Hb.
Qed.

Lemma store_inv_constructor : Props.store_inv constructor.
Proof. split; simpl; constructor. Qed.

Lemma store_inv_clear (this : MemStorage) :
  Props.store_inv (clearAllResolvedUrls this).
Proof. split; simpl; constructor. Qed.

Lemma StronglySorted_snoc {A : Type} (R : A -> A -> Prop) (l : list A) (x : A) :
  StronglySorted R l -> Forall (fun y => R y x) l -> StronglySorted R (l ++ [x]).
Proof.
  induction 1 as [| a l Hs IH Ha]; intros Hx; simpl.
  - repeat constructor.
  - inversion Hx; subst. constructor; [now apply IH|].
    apply Forall_app. split; [assumption | now repeat constructor].
Qed.

Lemma store_inv_store (this : MemStorage) (now : Z) (o r : string) :
  Props.store_inv this ->
  Props.store_inv (fst (resolveAndStoreUrl this now o r)).
Proof.
  intros Hinv. pose proof (store_inv_fresh this Hinv) as Hfresh.
  destruct Hinv as [Hk Ho Hb]. unfold resolveAndStoreUrl. simpl.
  rewrite (map_set_fresh _ _ _ Hfresh).
  split; simpl; unfold map_values; rewrite ?map_app; simpl.
  - apply Forall_app. split; [assumption | now repeat constructor].
  - apply StronglySorted_snoc; [assumption|].
    simpl. exact Hb.
  - apply Forall_app. split.
    + eapply Forall_impl; [|exact Hb]. simpl. intros; lia.
    + repeat constructor. simpl. lia.
Qed.

Lemma store_inv_run (ops : list Op) (this : MemStorage) :
  Props.store_inv this -> Props.store_inv (fst (run this ops)).
Proof.
  revert this. induction ops as [| o ops IH]; intros this Hinv; simpl.
  - assumption.
  - destruct o as [now o r |]; simpl.
    + specialize (IH _ (store_inv_store this now o r Hinv)). simpl in IH.
      destruct (run _ ops). exact IH.
    + specialize (IH _ (store_inv_clear this)).
      destruct (run _ ops). exact IH.
Qed.

Lemma store_inv_reachable (this : MemStorage) :
  reachable this -> Props.store_inv this.
Proof.
  intros [ops <-]. apply store_inv_run, store_inv_constructor.
Qed.

End StorageFacts.

(** *** The sort of getAllResolvedUrls *)

Section SortFacts.

Lemma sort_insert_perm {A : Type} (f : A -> A -> Z) (x : A) (l : list A) :
  Permutation (x :: l) (Js.sort_insert f x l).
Proof.
  induction l as [| y l IH]; simpl; [reflexivity|].
  destruct (f y x <? 0); [|reflexivity].
  rewrite perm_swap. now constructor.
Qed.

Lemma array_sort_perm {A : Type} (f : A -> A -> Z) (l : list A) :
  Permutation l (Js.array_sort f l).
Proof.
  induction l as [| x l IH]; simpl; [reflexivity|].
  rewrite <- sort_insert_perm. now constructor.
Qed.

Lemma sort_insert_listed (x : ResolvedUrl) (l : list ResolvedUrl) :
  StronglySorted Props.listedBefore l ->
  Forall (fun y => id x < id y) l ->
  StronglySorted Props.listedBefore (Js.sort_insert byTimestampDesc x l).
Proof.
  induction 1 as [| y l Hs IH Hy]; intros Hx; simpl.
  - repeat constructor.
  - inversion Hx as [| ? ? Hxy Hxl]; subst.
    unfold byTimestampDesc at 1.
    destruct (Z.ltb_spec (timestamp x - timestamp y) 0) as [Hlt | Hge].
    + constructor; [now apply IH|].
      rewrite <- sort_insert_perm. constructor; [|assumption].
      left. lia.
    + constructor; [now constructor|].
      constructor.
      * unfold Props.listedBefore. lia.
      * rewrite Forall_forall in *. intros z Hz.
        specialize (Hy z Hz). specialize (Hxl z Hz).
        unfold Props.listedBefore in *. lia.
Qed.

(** The sort is stable: records of one timestamp keep their order. *)
Lemma sort_insert_stable (t : Z) (x : ResolvedUrl) (l : list ResolvedUrl) :
  filter (Props.createdAt t) (Js.sort_insert byTimestampDesc x l) =
  filter (Props.createdAt t) (x :: l).
Proof.
  induction l as [| y l IH]; [reflexivity|].
  cbn [Js.sort_insert]. unfold byTimestampDesc at 1.
  destruct (Z.ltb_spec (timestamp x - timestamp y) 0) as [Hlt | Hge];
    [|reflexivity].
  cbn [filter] in IH |- *. rewrite IH. unfold Props.createdAt.
  destruct (Z.eqb_spec (timestamp y) t), (Z.eqb_spec (timestamp x) t);
    try reflexivity; lia.
Qed.

Lemma array_sort_stable (t : Z) (l : list ResolvedUrl) :
  filter (Props.createdAt t) (Js.array_sort byTimestampDesc l) =
  filter (Props.createdAt t) l.
Proof.
  induction l as [| x l IH]; [reflexivity|].
  cbn [Js.array_sort]. rewrite sort_insert_stable.
  cbn [filter]. now rewrite IH.
Qed.

(** Whatever the array, the result is in the order of the comparator. *)
Lemma sort_insert_sorted (x : ResolvedUrl) (l : list ResolvedUrl) :
  StronglySorted (fun a b => timestamp b <= timestamp a) l ->
  StronglySorted (fun a b => timestamp b <= timestamp a)
                 (Js.sort_insert byTimestampDesc x l).
Proof.
  induction 1 as [| y l Hs IH Hy]; simpl.
  - repeat constructor.
  - unfold byTimestampDesc at 1.
    destruct (Z.ltb_spec (timestamp x - timestamp y) 0) as [Hlt | Hge].
    + constructor; [exact IH|].
      rewrite <- sort_insert_perm. constructor; [lia | assumption].
    + constructor; [now constructor|].
      constructor; [lia|].
      eapply Forall_impl; [|exact Hy]. simpl. intros; lia.
Qed.

Lemma array_sort_sorted (l : list ResolvedUrl) :
  StronglySorted (fun a b => timestamp b <= timestamp a)
                 (Js.array_sort byTimestampDesc l).
Proof.
  induction l as [| x l IH]; simpl; [constructor|].
  now apply sort_insert_sorted.
Qed.

(** Stability leaves no choice: two lists in the order of the comparator
    that hold the same records of every timestamp in the same order are
    one list.  So every stable sort gives what [Js.array_sort] gives. *)
Lemma stable_sorted_unique (l1 l2 : list ResolvedUrl) :
  StronglySorted (fun a b => timestamp b <= timestamp a) l1 ->
  StronglySorted (fun a b => timestamp b <= timestamp a) l2 ->
  (forall t, filter (Props.createdAt t) l1 = filter (Props.createdAt t) l2) ->
  l1 = l2.
Proof.
  assert (Hself : forall x, Props.createdAt (timestamp x) x = true)
    by (intros x; apply Z.eqb_refl).
  intros H1. revert l2.
  induction H1 as [| a l1 Hs1 IH Ha]; intros l2 H2 Hf.
  - destruct l2 as [| b l2]; [reflexivity|].
    specialize (Hf (timestamp b)). cbn [filter] in Hf.
    rewrite Hself in Hf. discriminate.
  - destruct l2 as [| b l2].
    + specialize (Hf (timestamp a)). cbn [filter] in Hf.
      rewrite Hself in Hf. discriminate.
    + inversion H2 as [| ? ? Hs2 Hb]; subst.
      assert (Hin : forall (x : ResolvedUrl) l l',
                 (forall t, filter (Props.createdAt t) (x :: l) =
                            filter (Props.createdAt t) l') ->
                 In x l').
      { intros x l l' Hx. specialize (Hx (timestamp x)).
        assert (Hi : In x (filter (Props.createdAt (timestamp x)) (x :: l))).
        { apply filter_In. split; [now left | apply Hself]. }
        rewrite Hx in Hi. now apply filter_In in Hi. }
      assert (Hab : timestamp a = timestamp b).
      { pose proof (Hin a l1 (b :: l2) Hf) as Ia.
        pose proof (Hin b l2 (a :: l1) (fun t => eq_sym (Hf t))) as Ib.
        rewrite Forall_forall in Ha, Hb.
        destruct Ia as [-> | Ia]; [reflexivity|].
        destruct Ib as [-> | Ib]; [reflexivity|].
        specialize (Ha b Ib). specialize (Hb a Ia). lia. }
      assert (Heq : a = b).
      { specialize (Hf (timestamp a)). cbn [filter] in Hf.
        rewrite Hself in Hf. rewrite Hab in Hf at 2. rewrite Hself in Hf.
        congruence. }
      subst b. f_equal. apply IH; [assumption|].
      intros t. specialize (Hf t). cbn [filter] in Hf.
      destruct (Props.createdAt t a); congruence.
Qed.

Lemma array_sort_listed (l : list ResolvedUrl) :
  StronglySorted (fun a b => id a < id b) l ->
  StronglySorted Props.listedBefore (Js.array_sort byTimestampDesc l).
Proof.
  induction 1 as [| x l Hs IH Hx]; simpl; [constructor|].
  apply sort_insert_listed; [assumption|].
  now rewrite <- array_sort_perm.
Qed.

End SortFacts.

(** C3 (as the code has it).  In every state of a store,
    [getAllResolvedUrls] returns exactly the current records, most recent
    timestamp first; the records of one timestamp come in the order of
    their insertion, so that of two records with equal timestamps the one
    with the lower identifier comes first. *)
Theorem getAllResolvedUrls_order (this : MemStorage) :
  reachable this ->
  Permutation (map_values (resolvedUrls this)) (getAllResolvedUrls this) /\
  (forall t, filter (Props.createdAt t) (getAllResolvedUrls this) =
             filter (Props.createdAt t) (map_values (resolvedUrls this))) /\
  StronglySorted Props.listedBefore (getAllResolvedUrls this).
Proof.
  intros Hr. apply store_inv_reachable in Hr. split; [|split].
  - apply array_sort_perm.
  - intros t. apply array_sort_stable.
  - apply array_sort_listed, Hr.
Qed.

(** Three records, the first two created within the same millisecond. *)
Lemma getAllResolvedUrls_order_witness :
  let this := fst (run constructor
                       [OpStore 5 "a" "https://a/"; OpStore 5 "b" "https://b/";
                        OpStore 7 "c" "https://c/"]) in
  reachable this /\
  map id (getAllResolvedUrls this) = [3; 1; 2] /\
  StronglySorted Props.listedBefore (getAllResolvedUrls this).
Proof.
  intros this.
  assert (Hr : reachable this) by (eexists; reflexivity).
  split; [exact Hr|]. split; [reflexivity|].
  exact (proj2 (proj2 (getAllResolvedUrls_order this Hr))).
Defined.

(** C3 as stated fails: two records created within the same millisecond
    are listed with the lower identifier first, not the higher. *)
Lemma getAllResolvedUrls_higher_id_first_fails :
  ~ (forall this : MemStorage,
        reachable this ->
        Permutation (map_values (resolvedUrls this)) (getAllResolvedUrls this) /\
        StronglySorted Spec.listedBefore (getAllResolvedUrls this)).
Proof.
  intros H.
  assert (H' : forall this, reachable this ->
                 StronglySorted Spec.listedBefore (getAllResolvedUrls this))
    by (intros this Hthis; exact (proj2 (H this Hthis))).
  clear H. rename H' into H.
  specialize (H (fst (run constructor
                          [OpStore 5 "a" "https://a/"; OpStore 5 "b" "https://b/"]))).
  assert (Hr : reachable (fst (run constructor
                          [OpStore 5 "a" "https://a/"; OpStore 5 "b" "https://b/"])))
    by (eexists; reflexivity).
  specialize (H Hr).
  assert (E : getAllResolvedUrls
                (fst (run constructor
                          [OpStore 5 "a" "https://a/"; OpStore 5 "b" "https://b/"]))
              = [mkResolvedUrl 1 "a" "https://a/" 5;
                 mkResolvedUrl 2 "b" "https://b/" 5]) by reflexivity.
  rewrite E in H.
  inversion H as [| ? ? _ Hall]; subst.
  inversion Hall as [| ? ? Hab _]; subst.
  unfold Spec.listedBefore in Hab. simpl in Hab. lia.
Qed.

(** *** Identifiers *)

Section IdentifierFacts.

Lemma clear_keeps_counter (this : MemStorage) :
  currentId (clearAllResolvedUrls this) = currentId this.
Proof. reflexivity. Qed.

Lemma store_issues_counter (this : MemStorage) (now : Z) (o r : string) :
  id (snd (resolveAndStoreUrl this now o r)) = currentId this /\
  currentId (fst (resolveAndStoreUrl this now o r)) = currentId this + 1.
Proof. split; reflexivity. Qed.

(** Along any history the counter never goes back, every identifier issued
    is at or above the counter the history started from and below the one
    it ends with, and identifiers come out in increasing order. *)
Lemma run_issued (ops : list Op) (this : MemStorage) :
  currentId this <= currentId (fst (run this ops)) /\
  Forall (fun i => currentId this <= i < currentId (fst (run this ops)))
         (snd (run this ops)) /\
  StronglySorted Z.lt (snd (run this ops)).
Proof.
  revert this. induction ops as [| o ops IH]; intros this; simpl.
  - repeat split; try constructor. lia.
  - destruct o as [now o r |]; simpl.
    + specialize (IH (fst (resolveAndStoreUrl this now o r))).
      simpl in IH. destruct (run _ ops) as [this2 ids2]. simpl in *.
      destruct IH as (Hle & Hall & Hsorted). repeat split.
      * lia.
      * constructor; [lia|].
        eapply Forall_impl; [|exact Hall]. simpl. intros; lia.
      * constructor; [assumption|].
        eapply Forall_impl; [|exact Hall]. simpl. intros; lia.
    + specialize (IH (clearAllResolvedUrls this)).
      simpl in IH. destruct (run _ ops) as [this2 ids2]. simpl in *.
      exact IH.
Qed.

End IdentifierFacts.

(** C8.  Whatever the sequence of [resolveAndStoreUrl] and
    [clearAllResolvedUrls] calls on a new store, the identifiers issued
    are strictly increasing in the order of issue, so none is issued
    twice; [clearAllResolvedUrls] leaves the counter as it is; and a
    record stored after any history, with whatever clears in it, gets an
    identifier above every identifier issued before. *)
Theorem identifiers_increase_and_are_never_reused (ops : list Op) :
  StronglySorted Z.lt (snd (run constructor ops)) /\
  NoDup (snd (run constructor ops)) /\
  (forall this, currentId (clearAllResolvedUrls this) = currentId this) /\
  (forall now o r,
      Forall (fun i => i < id (snd (resolveAndStoreUrl
                                      (fst (run constructor (ops ++ [OpClear])))
                                      now o r)))
             (snd (run constructor (ops ++ [OpClear])))).
Proof.
  destruct (run_issued ops constructor) as (_ & _ & Hsorted).
  split; [exact Hsorted|]. split; [|split].
  - clear - Hsorted.
    induction Hsorted as [| i l _ IH Hi]; constructor; [|exact IH].
    intros Hin. rewrite Forall_forall in Hi. specialize (Hi i Hin). lia.
  - intros this. reflexivity.
  - intros now o r.
    destruct (run_issued (ops ++ [OpClear]) constructor) as (_ & Hall & _).
    eapply Forall_impl; [|exact Hall]. simpl. intros; lia.
Qed.

(** *** checkUrlExists *)

(** C9.  [checkUrlExists] answers [true] exactly when a current record has
    the very string asked for as its [resolvedUrl]; a string that differs
    by a trailing slash or by the case of a letter is another string. *)
Theorem checkUrlExists_exact (this : MemStorage) (s : string) :
  (checkUrlExists this s = true <->
   exists r, In r (map_values (resolvedUrls this)) /\ resolvedUrl r = s) /\
  (forall now o,
      let this' := fst (resolveAndStoreUrl constructor now o "https://example.com/a") in
      checkUrlExists this' "https://example.com/a" = true /\
      checkUrlExists this' "https://example.com/a/" = false /\
      checkUrlExists this' "https://Example.com/a" = false /\
      checkUrlExists this' "HTTPS://example.com/a" = false).
Proof.
  split.
  - unfold checkUrlExists, Js.array_some. rewrite existsb_exists. split.
    + intros (r & Hin & Heq). exists r. split; [assumption|].
      now apply String.eqb_eq.
    + intros (r & Hin & Heq). exists r. split; [assumption|].
      now apply String.eqb_eq.
  - intros now o. repeat split.
Qed.

(* ================================================================= *)
(** ** The resolver *)

Section ResolverFacts.
Context {P : Platform}.

Lemma loop_body (maxRedirects : Z) (w : World) (currentUrl : string)
    (redirectCount : Z) :
  loop maxRedirects w currentUrl redirectCount =
  if redirectCount <? maxRedirects then
    match iteration w currentUrl with
    | (w', sent, Continue next) =>
        let '(w'', sent', completion) :=
          loop maxRedirects w' next (redirectCount + 1) in
        (w'', sent ++ sent', completion)
    | (w', sent, Return value) => (w', sent, inr value)
    | (w', sent, Throw e) => (w', sent, inl e)
    end
  else (w, [], inl (TooManyRedirects maxRedirects)).
Proof.
  simp loop.
  destruct (Z_lt_dec redirectCount maxRedirects) as [Hlt | Hge];
    destruct (Z.ltb_spec redirectCount maxRedirects); try lia; simpl.
  - destruct (iteration w currentUrl) as [[w' sent] [next | value | e]];
      simpl; reflexivity.
  - reflexivity.
Qed.

Lemma onResponse_redirect (u : string) (r : Response) (l : string) :
  Props.redirectLocation r = Some l ->
  onResponse u r = match nextUrl u l with
                   | inl e => Throw e
                   | inr next => Continue next
                   end.
Proof.
  unfold Props.redirectLocation, onResponse.
  destruct (location r) as [l' |]; [|discriminate].
  destruct ((300 <=? status r) && (status r <? 400)); simpl; [|discriminate].
  destruct (Js.truthy l'); [|discriminate].
  now intros [= ->].
Qed.

Lemma onResponse_final (u : string) (r : Response) :
  Props.redirectLocation r = None -> onResponse u r = Return u.
Proof.
  unfold Props.redirectLocation, onResponse.
  destruct (location r) as [l' |];
    destruct ((300 <=? status r) && (status r <? 400)); simpl; try reflexivity.
  destruct (Js.truthy l'); [discriminate | reflexivity].
Qed.

(** What an iteration does with the response it gets. *)
Lemma iteration_answered (w : World) (u : string) (w1 : World)
    (sent : list Probe) (r : Response) :
  Props.answered w u w1 sent r ->
  (forall s, onResponse u r = s -> (forall e, s <> Throw e) ->
             iteration w u = (w1, sent, s)).
Proof.
  intros [w0 u0 w' r0 Hhead | w0 u0 w' e w2 r0 Hhead Hget] s Hs Hnot;
    unfold iteration, attempt.
  - rewrite Hhead, Hs. destruct s; try reflexivity. now destruct (Hnot e).
  - rewrite Hhead, Hget, Hs. destruct s; try reflexivity. now destruct (Hnot e0).
Qed.

Lemma iteration_redirect (w : World) (u : string) (w1 : World)
    (sent : list Probe) (r : Response) (l next : string) :
  Props.answered w u w1 sent r ->
  Props.redirectLocation r = Some l ->
  nextUrl u l = inr next ->
  iteration w u = (w1, sent, Continue next).
Proof.
  intros Ha Hl Hn. apply (iteration_answered _ _ _ _ _ Ha).
  - now rewrite (onResponse_redirect _ _ _ Hl), Hn.
  - discriminate.
Qed.

Lemma iteration_final (w : World) (u : string) (w1 : World)
    (sent : list Probe) (r : Response) :
  Props.answered w u w1 sent r ->
  Props.redirectLocation r = None ->
  iteration w u = (w1, sent, Return u).
Proof.
  intros Ha Hl. apply (iteration_answered _ _ _ _ _ Ha).
  - now apply onResponse_final.
  - discriminate.
Qed.

(** The probes of one iteration: the HEAD probe, and the GET probe after
    it when the first [try] block threw. *)
Lemma iteration_sent (w : World) (u : string) :
  snd (fst (iteration w u)) = [probe HEAD u] \/
  snd (fst (iteration w u)) = [probe HEAD u; probe GET u].
Proof.
  unfold iteration.
  destruct (attempt w HEAD u) as [w1 [next | value | e]]; simpl; auto.
  destruct (attempt w1 GET u) as [w2 [next | value | e2]]; simpl; auto.
Qed.

Lemma loop_redirects (maxRedirects : Z) (w : World) (u : string) (n : nat)
    (w1 : World) (u1 : string) (sent1 : list Probe) :
  Props.redirects w u n w1 u1 sent1 ->
  forall redirectCount,
    redirectCount + Z.of_nat n <= maxRedirects ->
    loop maxRedirects w u redirectCount =
    let '(w2, sent2, completion) :=
      loop maxRedirects w1 u1 (redirectCount + Z.of_nat n) in
    (w2, sent1 ++ sent2, completion).
Proof.
  induction 1 as [w u | w u w1 sent r l next n w2 u2 sent2 Ha Hl Hn _ IH];
    intros c Hc.
  - replace (c + Z.of_nat 0) with c by lia.
    now destruct (loop maxRedirects w u c) as [[? ?] ?].
  - rewrite loop_body.
    destruct (Z.ltb_spec c maxRedirects); [|lia].
    rewrite (iteration_redirect _ _ _ _ _ _ _ Ha Hl Hn).
    rewrite IH by lia.
    replace (c + 1 + Z.of_nat n) with (c + Z.of_nat (S n)) by lia.
    destruct (loop maxRedirects w2 u2 (c + Z.of_nat (S n))) as [[? ?] ?].
    now rewrite app_assoc.
Qed.

Lemma iterations_app (s1 s2 : list Probe) :
  Props.iterations (s1 ++ s2) = Props.iterations s1 + Props.iterations s2.
Proof.
  unfold Props.iterations. rewrite filter_app, length_app. lia.
Qed.

Lemma iteration_counts (w : World) (u : string) :
  Props.iterations (snd (fst (iteration w u))) = 1 /\
  Z.of_nat (List.length (snd (fst (iteration w u)))) <= 2.
Proof.
  destruct (iteration_sent w u) as [-> | ->]; split; try reflexivity;
    simpl; lia.
Qed.

(** The loop runs its body at most [maxRedirects - redirectCount] times,
    and sends at most two probes each time. *)
Lemma loop_bound (maxRedirects : Z) (k : nat) :
  forall (w : World) (u : string) (redirectCount : Z),
    maxRedirects - redirectCount <= Z.of_nat k ->
    let sent := snd (fst (loop maxRedirects w u redirectCount)) in
    Props.iterations sent <= Z.max 0 (maxRedirects - redirectCount) /\
    Z.of_nat (List.length sent) <= 2 * Props.iterations sent.
Proof.
  assert (Hnone : forall w0 : World,
             let sent := snd (fst (w0, @nil Probe,
                                   @inl Thrown string (TooManyRedirects maxRedirects))) in
             Props.iterations sent = 0 /\ Z.of_nat (List.length sent) = 0)
    by (intros; split; reflexivity).
  induction k as [| k IH]; intros w u c Hk; cbv zeta; rewrite loop_body.
  - destruct (Z.ltb_spec c maxRedirects); [lia|].
    destruct (Hnone w) as [-> ->]. lia.
  - destruct (Z.ltb_spec c maxRedirects); [|destruct (Hnone w) as [-> ->]; lia].
    destruct (iteration_counts w u) as [Hits Hlen].
    destruct (iteration w u) as [[w' sent] [next | value | e]];
      cbn [fst snd] in Hits, Hlen |- *; [|lia|lia].
    specialize (IH w' next (c + 1) ltac:(lia)). cbv zeta in IH.
    destruct (loop maxRedirects w' next (c + 1)) as [[w'' sent'] completion].
    cbn [fst snd] in IH |- *. rewrite iterations_app, length_app. lia.
Qed.

End ResolverFacts.

(** C1.  [followRedirects] runs the body of its loop at most [maxRedirects]
    times, with at most two probes each time.  When the probes meet fewer
    than [maxRedirects] redirects in a row and then a response that is not
    a redirect (no 3xx status, or no Location to follow), it returns the
    URL it is at by then; when they meet [maxRedirects] redirects in a
    row, it throws the too-many-redirects error, after no further
    probe. *)
Theorem followRedirects_terminates_within_maxRedirects
    {P : Platform} (w : World) (url : string) (maxRedirects : Z) :
  (Props.iterations (snd (fst (followRedirects w url maxRedirects)))
     <= Z.max 0 maxRedirects /\
   Z.of_nat (List.length (snd (fst (followRedirects w url maxRedirects))))
     <= 2 * Z.max 0 maxRedirects) /\
  (forall n w1 u1 sent1 w2 sent2 r,
      Props.redirects w (ensureProtocol url) n w1 u1 sent1 ->
      Z.of_nat n < maxRedirects ->
      Props.answered w1 u1 w2 sent2 r ->
      Props.redirectLocation r = None ->
      followRedirects w url maxRedirects = (w2, sent1 ++ sent2, inr u1)) /\
  (forall n w1 u1 sent1,
      Props.redirects w (ensureProtocol url) n w1 u1 sent1 ->
      Z.of_nat n = maxRedirects ->
      followRedirects w url maxRedirects =
      (w1, sent1, inl (TooManyRedirects maxRedirects))).
Proof.
  unfold followRedirects. split; [|split].
  - pose proof (loop_bound maxRedirects (Z.to_nat maxRedirects) w
                           (ensureProtocol url) 0 ltac:(lia)) as H.
    cbv zeta in H. rewrite Z.sub_0_r in H. lia.
  - intros n w1 u1 sent1 w2 sent2 r Hred Hn Ha Hl.
    rewrite (loop_redirects _ _ _ _ _ _ _ Hred) by lia.
    rewrite loop_body. simpl (0 + _).
    destruct (Z.ltb_spec (Z.of_nat n) maxRedirects); [|lia].
    now rewrite (iteration_final _ _ _ _ _ Ha Hl).
  - intros n w1 u1 sent1 Hred Hn.
    rewrite (loop_redirects _ _ _ _ _ _ _ Hred) by lia.
    rewrite loop_body. simpl (0 + _).
    destruct (Z.ltb_spec (Z.of_nat n) maxRedirects); [lia|].
    now rewrite app_nil_r.
Qed.

(** A redirect to a root-relative path and then a final answer, within
    ten hops; two redirects in a row with two hops allowed. *)
Lemma followRedirects_terminates_within_maxRedirects_witness :
  followRedirects (P := Sample.platform)
    [Sample.redirectTo "/b"; Sample.ok] "example.com/a" 10 =
  ([], [probe HEAD "https://example.com/a"; probe HEAD "https://example.com/b"],
   inr "https://example.com/b") /\
  followRedirects (P := Sample.platform)
    [Sample.redirectTo "/b"; Sample.redirectTo "/c"; Sample.ok] "example.com/a" 2 =
  ([Sample.ok],
   [probe HEAD "https://example.com/a"; probe HEAD "https://example.com/b"],
   inl (JsError "Too many redirects (max 2)")).
Proof.
  split.
  - refine (proj1 (proj2 (followRedirects_terminates_within_maxRedirects
                            (P := Sample.platform)
                            [Sample.redirectTo "/b"; Sample.ok] "example.com/a" 10))
              1%nat [Sample.ok] "https://example.com/b"
              ([probe HEAD "https://example.com/a"] ++ [])
              [] [probe HEAD "https://example.com/b"]
              {| status := 200; location := None |} _ _ _ _).
    + apply Props.redirects_next
        with (w1 := [Sample.ok]) (r := {| status := 302; location := Some "/b" |})
             (l := "/b") (next := "https://example.com/b").
      * apply Props.answered_head. reflexivity.
      * reflexivity.
      * reflexivity.
      * apply Props.redirects_none.
    + reflexivity.
    + apply Props.answered_head. reflexivity.
    + reflexivity.
  - refine (proj2 (proj2 (followRedirects_terminates_within_maxRedirects
                            (P := Sample.platform)
                            [Sample.redirectTo "/b"; Sample.redirectTo "/c"; Sample.ok]
                            "example.com/a" 2))
              2%nat [Sample.ok] "https://example.com/c"
              ([probe HEAD "https://example.com/a"]
                 ++ [probe HEAD "https://example.com/b"] ++ []) _ _).
    + apply Props.redirects_next
        with (w1 := [Sample.redirectTo "/c"; Sample.ok])
             (r := {| status := 302; location := Some "/b" |}) (l := "/b")
             (next := "https://example.com/b").
      * apply Props.answered_head. reflexivity.
      * reflexivity.
      * reflexivity.
      * apply Props.redirects_next
          with (w1 := [Sample.ok])
               (r := {| status := 302; location := Some "/c" |}) (l := "/c")
               (next := "https://example.com/c").
        -- apply Props.answered_head. reflexivity.
        -- reflexivity.
        -- reflexivity.
        -- apply Props.redirects_none.
    + reflexivity.
Defined.

(** *** The HEAD-then-GET fallback *)



(** *** The protocol of the first probe *)

Section ProtocolFacts.
Context {P : Platform}.

Lemma first_probe (w : World) (url : string) (maxRedirects : Z) :
  0 < maxRedirects ->
  hd_error (snd (fst (followRedirects w url maxRedirects))) =
  Some (probe HEAD (ensureProtocol url)).
Proof.
  intros Hmax. unfold followRedirects. rewrite loop_body.
  destruct (Z.ltb_spec 0 maxRedirects); [|lia].
  pose proof (iteration_sent w (ensureProtocol url)) as Hsent.
  destruct (iteration w (ensureProtocol url)) as [[w' sent] [next | value | e]];
    cbn [fst snd] in Hsent |- *.
  - destruct (loop maxRedirects w' next (0 + 1)) as [[w'' sent'] completion].
    cbn [fst snd]. now destruct Hsent as [-> | ->].
  - now destruct Hsent as [-> | ->].
  - now destruct Hsent as [-> | ->].
Qed.

Lemma ensureProtocol_without (url : string) :
  Js.startsWith url "http://" = false ->
  Js.startsWith url "https://" = false ->
  ensureProtocol url = ("https://" ++ url)%string.
Proof. intros H1 H2. unfold ensureProtocol. now rewrite H1, H2. Qed.

Lemma ensureProtocol_with (url : string) :
  Js.startsWith url "http://" = true \/ Js.startsWith url "https://" = true ->
  ensureProtocol url = url.
Proof.
  intros H. unfold ensureProtocol.
  destruct H as [-> | ->]; [reflexivity|].
  now rewrite andb_false_r.
Qed.

End ProtocolFacts.

(** C7.  An input that starts neither with [http://] nor with [https://]
    gets [https://] put before it, and that is the URL of the first probe;
    an input that starts with either is the URL of the first probe as it
    is. *)
Theorem followRedirects_prepends_https
    {P : Platform} (w : World) (url : string) (maxRedirects : Z) :
  0 < maxRedirects ->
  (Js.startsWith url "http://" = false ->
   Js.startsWith url "https://" = false ->
   ensureProtocol url = ("https://" ++ url)%string /\
   hd_error (snd (fst (followRedirects w url maxRedirects))) =
   Some (probe HEAD ("https://" ++ url)%string)) /\
  (Js.startsWith url "http://" = true \/ Js.startsWith url "https://" = true ->
   ensureProtocol url = url /\
   hd_error (snd (fst (followRedirects w url maxRedirects))) =
   Some (probe HEAD url)).
Proof.
  intros Hmax. split.
  - intros H1 H2. rewrite (first_probe _ _ _ Hmax).
    now rewrite (ensureProtocol_without _ H1 H2).
  - intros H. rewrite (first_probe _ _ _ Hmax).
    now rewrite (ensureProtocol_with _ H).
Qed.

(** [example.com] is probed as [https://example.com], and
    [http://example.com] as it is. *)
Lemma followRedirects_prepends_https_witness :
  hd_error (snd (fst (followRedirects (P := Sample.platform)
                        [Sample.ok] "example.com" 10))) =
  Some (probe HEAD "https://example.com") /\
  hd_error (snd (fst (followRedirects (P := Sample.platform)
                        [Sample.ok] "http://example.com" 10))) =
  Some (probe HEAD "http://example.com").
Proof.
  split.
  - refine (proj2 (proj1 (followRedirects_prepends_https
                            (P := Sample.platform) [Sample.ok] "example.com" 10 _)
                     _ _)); [lia | reflexivity | reflexivity].
  - refine (proj2 (proj2 (followRedirects_prepends_https
                            (P := Sample.platform) [Sample.ok]
                            "http://example.com" 10 _)
                     _)); [lia | left; reflexivity].
Defined.

(** *** Schemes written with uppercase letters *)

Section SchemeFacts.

Lemma colon_not_scheme_char (c : ascii) :
  Spec.isSchemeChar c = true -> c <> ":"%char.
Proof. intros H ->. discriminate. Qed.

Lemma prefix_cons (a b : ascii) (s t : string) :
  String.prefix (String a s) (String b t) = true ->
  a = b /\ String.prefix s t = true.
Proof.
  simpl. destruct (ascii_dec a b); [now split | discriminate].
Qed.

(** A prefix that is a scheme and [://] can only be met by that very
    scheme. *)
Lemma prefix_scheme (p scheme rest : string) :
  Forall (fun c => Spec.isSchemeChar c = true) (list_ascii_of_string p) ->
  Forall (fun c => Spec.isSchemeChar c = true) (list_ascii_of_string scheme) ->
  String.prefix (p ++ "://") (scheme ++ ":" ++ rest) = true ->
  scheme = p.
Proof.
  revert scheme. induction p as [| a p IH]; intros scheme Hp Hs Hpre.
  - destruct scheme as [| c scheme]; [reflexivity|].
    apply prefix_cons in Hpre. destruct Hpre as [<- _].
    inversion Hs; subst. discriminate.
  - destruct scheme as [| c scheme]; simpl in Hp, Hs; inversion Hp; subst.
    + apply prefix_cons in Hpre. destruct Hpre as [-> _]. discriminate.
    + apply prefix_cons in Hpre. destruct Hpre as [<- Hpre].
      inversion Hs; subst. f_equal. now apply IH.
Qed.

Lemma uppercase_scheme_no_prefix (p scheme rest : string) :
  Forall (fun c => Spec.isSchemeChar c = true) (list_ascii_of_string p) ->
  Forall (fun c => Props.isUpper c = false) (list_ascii_of_string p) ->
  Forall (fun c => Spec.isSchemeChar c = true) (list_ascii_of_string scheme) ->
  Exists (fun c => Props.isUpper c = true) (list_ascii_of_string scheme) ->
  Js.startsWith (scheme ++ ":" ++ rest) (p ++ "://") = false.
Proof.
  intros Hp Hlow Hs Hup. unfold Js.startsWith.
  destruct (String.prefix (p ++ "://") (scheme ++ ":" ++ rest)) eqn:Hpre;
    [|reflexivity].
  apply prefix_scheme in Hpre; [|assumption|assumption]. subst scheme.
  rewrite Exists_exists in Hup. destruct Hup as (c & Hin & Hc).
  rewrite Forall_forall in Hlow. specialize (Hlow c Hin). congruence.
Qed.

End SchemeFacts.

(** C10.  The test for the protocol compares code units: an input whose
    scheme, the part before its first colon, has an uppercase letter in it
    starts neither with [http://] nor with [https://], so [https://] is
    put before it, and the result is the URL of the first probe. *)
Theorem uppercase_scheme_is_not_recognised
    {P : Platform} (w : World) (scheme rest : string) (maxRedirects : Z) :
  Forall (fun c => Spec.isSchemeChar c = true) (list_ascii_of_string scheme) ->
  Exists (fun c => Props.isUpper c = true) (list_ascii_of_string scheme) ->
  0 < maxRedirects ->
  ensureProtocol (scheme ++ ":" ++ rest) =
  ("https://" ++ scheme ++ ":" ++ rest)%string /\
  hd_error (snd (fst (followRedirects w (scheme ++ ":" ++ rest) maxRedirects))) =
  Some (probe HEAD ("https://" ++ scheme ++ ":" ++ rest)%string).
Proof.
  intros Hs Hup Hmax.
  assert (E : ensureProtocol (scheme ++ ":" ++ rest) =
              ("https://" ++ scheme ++ ":" ++ rest)%string).
  { apply ensureProtocol_without.
    - apply (uppercase_scheme_no_prefix "http"); try assumption;
        repeat constructor.
    - apply (uppercase_scheme_no_prefix "https"); try assumption;
        repeat constructor. }
  split; [exact E|].
  now rewrite (first_probe _ _ _ Hmax), E.
Qed.

(** [HTTP://example.com] is probed as [https://HTTP://example.com], and
    [Https://example.com] as [https://Https://example.com]. *)
Lemma uppercase_scheme_is_not_recognised_witness :
  (ensureProtocol "HTTP://example.com" = "https://HTTP://example.com" /\
   hd_error (snd (fst (followRedirects (P := Sample.platform)
                         [Sample.ok] "HTTP://example.com" 10))) =
   Some (probe HEAD "https://HTTP://example.com")) /\
  (ensureProtocol "Https://example.com" = "https://Https://example.com" /\
   hd_error (snd (fst (followRedirects (P := Sample.platform)
                         [Sample.ok] "Https://example.com" 10))) =
   Some (probe HEAD "https://Https://example.com")).
Proof.
  split.
  - refine (uppercase_scheme_is_not_recognised (P := Sample.platform)
              [Sample.ok] "HTTP" "//example.com" 10 _ _ _).
    + repeat constructor.
    + constructor. reflexivity.
    + lia.
  - refine (uppercase_scheme_is_not_recognised (P := Sample.platform)
              [Sample.ok] "Https" "//example.com" 10 _ _ _).
    + repeat constructor.
    + constructor. reflexivity.
    + lia.
Defined.

(** *** Following a Location *)

Section LocationFacts.
Context {P : Platform}.

Lemma redirectLocation_3xx (r : Response) (l : string) :
  300 <= status r < 400 -> location r = Some l -> l <> EmptyString ->
  Props.redirectLocation r = Some l.
Proof.
  intros Hs Hl Hne. unfold Props.redirectLocation. rewrite Hl.
  destruct (Z.leb_spec 300 (status r)); [|lia].
  destruct (Z.ltb_spec (status r) 400); [|lia].
  destruct l; [congruence | reflexivity].
Qed.

End LocationFacts.

(** C2.  The claim holds of the code except where line 34 takes a
    relative path for an absolute URL.  The Location
    [httpdocs/index.html] starts neither with a scheme nor with a slash,
    so the claim resolves it against the current URL; the resolver,
    testing for the four characters [http] only, goes on from the Location
    as it is.  The next probes go to [httpdocs/index.html], which is no
    URL: when the network refuses them the resolution fails. *)
Theorem relative_location_with_http_is_taken_as_absolute
    {P : Platform} (w : World) (url : string) (w1 : World) (sent : list Probe)
    (r : Response) :
  Props.answered w (ensureProtocol url) w1 sent r ->
  300 <= status r < 400 ->
  location r = Some "httpdocs/index.html" ->
  (Spec.startsWithScheme "httpdocs/index.html" = false /\
   Js.startsWith "httpdocs/index.html" "/" = false) /\
  (forall resolved,
      URL_new "httpdocs/index.html" (Some (ensureProtocol url)) = inr resolved ->
      Spec.nextUrl (ensureProtocol url) "httpdocs/index.html" =
      inr (href resolved)) /\
  iteration w (ensureProtocol url) = (w1, sent, Continue "httpdocs/index.html") /\
  (forall maxRedirects w2 e w3 message,
      1 < maxRedirects ->
      fetch w1 "httpdocs/index.html" (probeInit HEAD) = (w2, inl e) ->
      fetch w2 "httpdocs/index.html" (probeInit GET) = (w3, inl (JsError message)) ->
      followRedirects w url maxRedirects =
      (w3,
       sent ++ [probe HEAD "httpdocs/index.html"; probe GET "httpdocs/index.html"],
       inl (JsError ("Failed to resolve URL: " ++ message)%string))).
Proof.
  intros Ha Hs Hl.
  assert (Hred : Props.redirectLocation r = Some "httpdocs/index.html")
    by (apply redirectLocation_3xx; [assumption | assumption | discriminate]).
  assert (Hnext : nextUrl (ensureProtocol url) "httpdocs/index.html" =
                  inr "httpdocs/index.html") by reflexivity.
  split; [now split|]. split; [|split].
  - intros resolved Hres. unfold Spec.nextUrl.
    cbn [Spec.startsWithScheme Spec.isAlpha Spec.schemeRest].
    change (Spec.startsWithScheme "httpdocs/index.html") with false.
    change (Js.startsWith "httpdocs/index.html" "/") with false.
    cbv iota. now rewrite Hres.
  - exact (iteration_redirect _ _ _ _ _ _ _ Ha Hred Hnext).
  - intros maxRedirects w2 e w3 message Hmax Hhead Hget.
    unfold followRedirects.
    rewrite (loop_redirects maxRedirects w (ensureProtocol url) 1 w1
               "httpdocs/index.html" (sent ++ [])).
    + rewrite loop_body. simpl (0 + _).
      destruct (Z.ltb_spec 1 maxRedirects); [|lia].
      unfold iteration, attempt. rewrite Hhead, Hget.
      now rewrite app_nil_r.
    + eapply Props.redirects_next; [exact Ha | exact Hred | exact Hnext|].
      apply Props.redirects_none.
    + lia.
Qed.

(** From [https://host/a/old] the claim leads to
    [https://host/a/httpdocs/index.html]; the resolver probes
    [httpdocs/index.html] and fails. *)
Lemma relative_location_with_http_is_taken_as_absolute_witness :
  Spec.nextUrl (P := Sample.platform) "https://host/a/old" "httpdocs/index.html" =
  inr "https://host/a/httpdocs/index.html" /\
  iteration (P := Sample.platform)
    [Sample.redirectTo "httpdocs/index.html"] "https://host/a/old" =
  ([], [probe HEAD "https://host/a/old"], Continue "httpdocs/index.html") /\
  followRedirects (P := Sample.platform)
    [Sample.redirectTo "httpdocs/index.html"; Sample.refused "Invalid URL";
     Sample.refused "Invalid URL"] "https://host/a/old" 10 =
  ([],
   [probe HEAD "https://host/a/old"; probe HEAD "httpdocs/index.html";
    probe GET "httpdocs/index.html"],
   inl (JsError "Failed to resolve URL: Invalid URL")).
Proof.
  split; [|split].
  - refine (proj1 (proj2 (relative_location_with_http_is_taken_as_absolute
                            (P := Sample.platform)
                            [Sample.redirectTo "httpdocs/index.html"]
                            "https://host/a/old" []
                            [probe HEAD "https://host/a/old"]
                            {| status := 302;
                               location := Some "httpdocs/index.html" |} _ _ _))
              (Sample.mkUrl "https:" "host" "/a/httpdocs/index.html") _).
    + apply Props.answered_head. reflexivity.
    + simpl. lia.
    + reflexivity.
    + reflexivity.
  - refine (proj1 (proj2 (proj2 (relative_location_with_http_is_taken_as_absolute
                            (P := Sample.platform)
                            [Sample.redirectTo "httpdocs/index.html"]
                            "https://host/a/old" []
                            [probe HEAD "https://host/a/old"]
                            {| status := 302;
                               location := Some "httpdocs/index.html" |} _ _ _)))).
    + apply Props.answered_head. reflexivity.
    + simpl. lia.
    + reflexivity.
  - refine (proj2 (proj2 (proj2 (relative_location_with_http_is_taken_as_absolute
                            (P := Sample.platform)
                            [Sample.redirectTo "httpdocs/index.html";
                             Sample.refused "Invalid URL";
                             Sample.refused "Invalid URL"]
                            "https://host/a/old"
                            [Sample.refused "Invalid URL"; Sample.refused "Invalid URL"]
                            [probe HEAD "https://host/a/old"]
                            {| status := 302;
                               location := Some "httpdocs/index.html" |} _ _ _)))
              10 [Sample.refused "Invalid URL"] (JsError "Invalid URL") []
              "Invalid URL" _ _ _).
    + apply Props.answered_head. reflexivity.
    + simpl. lia.
    + reflexivity.
    + lia.
    + reflexivity.
    + reflexivity.
Defined.

(** *** POST /api/resolve-url *)

(** C4.  When the input of a request resolves to a URL that
    [checkUrlExists] finds in the store, the reply is the conflict, status
    409 and not 200, with the resolved URL in it, and the store is what it
    was: the same records and the same counter. *)
Theorem duplicate_is_answered_with_conflict
    {P : Platform} (storage : MemStorage) (w : World) (now : Z) (body : Body)
    (url : string) (w' : World) (sent : list Probe) (r : string) :
  urlResolveSchema_parse body = inr url ->
  followRedirects w url defaultMaxRedirects = (w', sent, inr r) ->
  checkUrlExists storage r = true ->
  resolveUrl storage w now body =
  (storage, w', sent,
   {| code := 409; payload := PConflict "URL already exists in the list" r |}) /\
  code (snd (resolveUrl storage w now body)) <> 200 /\
  resolvedUrls (fst (fst (fst (resolveUrl storage w now body)))) = resolvedUrls storage /\
  currentId (fst (fst (fst (resolveUrl storage w now body)))) = currentId storage.
Proof.
  intros Hparse Hfollow Hexists.
  assert (E : resolveUrl storage w now body =
              (storage, w', sent,
               {| code := 409;
                  payload := PConflict "URL already exists in the list" r |})).
  { unfold resolveUrl, resolveUrlTry. now rewrite Hparse, Hfollow, Hexists. }
  rewrite E. repeat split. simpl. lia.
Qed.

(** The same URL submitted twice: the second request is a conflict. *)
Lemma duplicate_is_answered_with_conflict_witness :
  let storage :=
    fst (fst (fst (resolveUrl (P := Sample.platform) constructor [Sample.ok] 1000
                              "https://example.com/a"))) in
  currentId storage = 2 /\
  resolveUrl (P := Sample.platform) storage [Sample.ok] 2000 "https://example.com/a" =
  (storage, [], [probe HEAD "https://example.com/a"],
   {| code := 409;
      payload := PConflict "URL already exists in the list" "https://example.com/a" |}).
Proof.
  intros storage. split; [reflexivity|].
  refine (proj1 (duplicate_is_answered_with_conflict (P := Sample.platform)
                   storage [Sample.ok] 2000 "https://example.com/a"
                   "https://example.com/a" [] [probe HEAD "https://example.com/a"]
                   "https://example.com/a" _ _ _)).
  - reflexivity.
  - reflexivity.
  - reflexivity.
Defined.

(* ================================================================= *)
(** ** The line-set utility *)

Section LineSetFacts.

Lemma nonempty_length (line : string) :
  (0 <? Js.length line) = negb (String.eqb line "").
Proof. destruct line; reflexivity. Qed.

Lemma linesOf_spec (content : string) :
  linesOf content = Spec.lines [content].
Proof.
  unfold linesOf, Spec.lines. simpl. rewrite app_nil_r.
  apply filter_ext. intros line. apply nonempty_length.
Qed.

Lemma lines_flat_map (blobs : list string) :
  Spec.lines blobs = flat_map linesOf blobs.
Proof.
  unfold Spec.lines. apply flat_map_ext. intros blob.
  symmetry. rewrite linesOf_spec. unfold Spec.lines. simpl.
  now rewrite app_nil_r.
Qed.

(** The [for ... of] loop that pushes the lines of every file. *)
Lemma push_all (files : list string) (allLines : list string) :
  fold_left (fun allLines fileContent => allLines ++ linesOf fileContent)
            files allLines =
  allLines ++ Spec.lines files.
Proof.
  rewrite lines_flat_map. revert allLines.
  induction files as [| f files IH]; intros allLines; simpl.
  - now rewrite app_nil_r.
  - rewrite IH. now rewrite app_assoc.
Qed.

Lemma filter_filter_comm {A : Type} (p q : A -> bool) (l : list A) :
  filter p (filter q l) = filter q (filter p l).
Proof.
  induction l as [| x l IH]; simpl; [reflexivity|].
  destruct (p x) eqn:Hp, (q x) eqn:Hq; simpl; rewrite ?Hp, ?Hq, IH; reflexivity.
Qed.

Lemma filter_absorb (p : string -> bool) (x : string) (l : list string) :
  p x = false ->
  filter p (filter (fun y => negb (String.eqb y x)) l) = filter p l.
Proof.
  intros Hp. induction l as [| y l IH]; simpl; [reflexivity|].
  destruct (String.eqb_spec y x) as [-> | Hne]; simpl.
  - now rewrite Hp.
  - now rewrite IH.
Qed.

(** Filtering by a property of lines commutes with keeping first
    occurrences. *)
Lemma firstOccurrences_filter (p : string -> bool) (l : list string) :
  Spec.firstOccurrences (filter p l) = filter p (Spec.firstOccurrences l).
Proof.
  induction l as [| x l IH]; simpl; [reflexivity|].
  destruct (p x) eqn:Hp; simpl.
  - rewrite IH. f_equal. apply filter_filter_comm.
  - rewrite IH. symmetry. now apply filter_absorb.
Qed.

Lemma filter_not_in_snoc (acc : list string) (x : string) (l : list string) :
  filter (fun y => negb (existsb (String.eqb y) (acc ++ [x]))) l =
  filter (fun y => negb (String.eqb y x))
         (filter (fun y => negb (existsb (String.eqb y) acc)) l).
Proof.
  rewrite filter_filter_comm.
  induction l as [| y l IH]; simpl; [reflexivity|].
  rewrite existsb_app. simpl. rewrite orb_false_r.
  destruct (existsb (String.eqb y) acc) eqn:Hin;
    destruct (String.eqb y x) eqn:Heq; simpl; rewrite ?Hin; simpl;
    now rewrite IH.
Qed.

(** Adding the elements of [l] to a set that holds [acc]. *)
Lemma fold_set_add (l acc : list string) :
  fold_left Js.set_add l acc =
  acc ++ Spec.firstOccurrences
           (filter (fun y => negb (existsb (String.eqb y) acc)) l).
Proof.
  revert acc. induction l as [| x l IH]; intros acc; simpl.
  - now rewrite app_nil_r.
  - unfold Js.set_add at 2.
    destruct (existsb (String.eqb x) acc) eqn:Hin; simpl.
    + apply IH.
    + rewrite IH, <- app_assoc. simpl. do 2 f_equal.
      rewrite filter_not_in_snoc. apply firstOccurrences_filter.
Qed.

Lemma new_Set_firstOccurrences (l : list string) :
  Js.new_Set l = Spec.firstOccurrences l.
Proof.
  unfold Js.new_Set. rewrite fold_set_add. simpl. f_equal.
  induction l as [| x l IH]; simpl; [reflexivity | now rewrite IH].
Qed.

Lemma analysisOf_lineSet (blobs : list string) :
  analysisOf (Spec.lines blobs) =
  {| code := 200; payload := PAnalysis (Spec.lineSet blobs) |}.
Proof.
  unfold analysisOf, Spec.lineSet. now rewrite new_Set_firstOccurrences.
Qed.

End LineSetFacts.

(** C6 (as the code has it).  [/api/merge-files] applies the line-set
    transform of the specification to its list of texts, whatever the
    list; [/api/analyze-file] applies it to its one text when that text is
    not empty.  The text of the example gives 5 lines, the unique lines
    [a], [b], [c], and 2 duplicates.  The empty text is answered by
    [/api/analyze-file] with status 400 and [File content is required],
    while [/api/merge-files] transforms it into the analysis of no
    line. *)
Theorem line_set_transform :
  (forall files : list string,
      mergeFiles (Some files) =
      {| code := 200; payload := PAnalysis (Spec.lineSet files) |}) /\
  (forall content : string,
      content <> EmptyString ->
      analyzeFile (Some content) =
      {| code := 200; payload := PAnalysis (Spec.lineSet [content]) |}) /\
  analyzeFile (Some Sample.blob) =
  {| code := 200;
     payload := PAnalysis {| totalLines := 5;
                             uniqueLines := 3;
                             duplicateLines := 2;
                             urls := ["a"; "b"; "c"] |} |} /\
  analyzeFile (Some EmptyString) =
  {| code := 400; payload := PMessage "File content is required" |} /\
  mergeFiles (Some [EmptyString]) =
  {| code := 200;
     payload := PAnalysis {| totalLines := 0;
                             uniqueLines := 0;
                             duplicateLines := 0;
                             urls := [] |} |}.
Proof.
  split; [|split; [|split; [|split]]].
  - intros files. unfold mergeFiles. rewrite push_all. simpl.
    apply analysisOf_lineSet.
  - intros content Hne. unfold analyzeFile.
    destruct content as [| c content]; [congruence|]. simpl negb. cbv iota.
    rewrite linesOf_spec. apply analysisOf_lineSet.
  - reflexivity.
  - reflexivity.
  - reflexivity.
Qed.

(** The transform on the text of the example, and on the two texts [a],
    [b] and [b], [c]. *)
Lemma line_set_transform_witness :
  analyzeFile (Some Sample.blob) =
  {| code := 200; payload := PAnalysis (Spec.lineSet [Sample.blob]) |} /\
  mergeFiles (Some [("a" ++ Sample.newline ++ "b")%string;
                    ("b" ++ Sample.newline ++ "c")%string]) =
  {| code := 200;
     payload := PAnalysis {| totalLines := 4;
                             uniqueLines := 3;
                             duplicateLines := 1;
                             urls := ["a"; "b"; "c"] |} |}.
Proof.
  split.
  - refine (proj1 (proj2 line_set_transform) Sample.blob _). discriminate.
  - exact (proj1 line_set_transform
                 [("a" ++ Sample.newline ++ "b")%string;
                  ("b" ++ Sample.newline ++ "c")%string]).
Defined.

(** C6 as stated fails for [/api/analyze-file]: an empty text is answered
    with status 400, not with the transform of it. *)
Lemma analyzeFile_empty_text_is_rejected :
  analyzeFile (Some EmptyString) =
  {| code := 400; payload := PMessage "File content is required" |} /\
  ~ (forall content : string,
        analyzeFile (Some content) =
        {| code := 200; payload := PAnalysis (Spec.lineSet [content]) |}).
Proof.
  split; [reflexivity|].
  intros H. specialize (H EmptyString). discriminate H.
Qed.

(* ================================================================= *)
(** ** Further properties of the store *)

Section MoreStorageFacts.

Lemma reachable_run (ops : list Op) : reachable (fst (run constructor ops)).
Proof. now exists ops. Qed.

Lemma store_appends (this : MemStorage) (now : Z) (o r : string) :
  Props.store_inv this ->
  resolvedUrls (fst (resolveAndStoreUrl this now o r)) =
  resolvedUrls this ++ [(currentId this, snd (resolveAndStoreUrl this now o r))].
Proof.
  intros Hinv. unfold resolveAndStoreUrl. cbn [fst snd resolvedUrls].
  apply map_set_fresh, store_inv_fresh, Hinv.
Qed.

(** Identifiers start at 1. *)
Lemma run_ids_from (ops : list Op) (this : MemStorage) :
  Props.store_inv this ->
  1 <= currentId this ->
  Forall (fun v => 1 <= id v) (map_values (resolvedUrls this)) ->
  1 <= currentId (fst (run this ops)) /\
  Forall (fun v => 1 <= id v) (map_values (resolvedUrls (fst (run this ops)))).
Proof.
  revert this. induction ops as [| op ops IH]; intros this Hinv Hc Hall.
  - now split.
  - cbn [run]. destruct op as [now o r |]; cbn [apply_op].
    + pose proof (store_appends this now o r Hinv) as Happ.
      pose proof (store_inv_store this now o r Hinv) as Hinv'.
      destruct (resolveAndStoreUrl this now o r) as [this1 entry] eqn:E.
      cbn [fst snd] in Happ, Hinv'.
      assert (Hentry : id entry = currentId this /\ currentId this1 = currentId this + 1).
      { unfold resolveAndStoreUrl in E. injection E as <- <-. now split. }
      specialize (IH this1 Hinv' ltac:(lia)).
      destruct (run this1 ops) as [this2 ids2]. cbn [fst] in IH |- *.
      apply IH. unfold map_values. rewrite Happ, map_app.
      apply Forall_app. split; [exact Hall|].
      repeat constructor. cbn [snd map]. lia.
    + specialize (IH (clearAllResolvedUrls this) (store_inv_clear this) Hc).
      destruct (run (clearAllResolvedUrls this) ops) as [this2 ids2].
      cbn [fst] in IH |- *. apply IH. constructor.
Qed.

Lemma sort_insert_oldest (x : ResolvedUrl) (l : list ResolvedUrl) :
  Forall (fun y => timestamp x < timestamp y) l ->
  Js.sort_insert byTimestampDesc x l = l ++ [x].
Proof.
  induction 1 as [| y l Hy _ IH]; [reflexivity|].
  cbn [Js.sort_insert app]. unfold byTimestampDesc at 1.
  destruct (Z.ltb_spec (timestamp x - timestamp y) 0); [|lia].
  now rewrite IH.
Qed.

End MoreStorageFacts.

(** X1.  [resolveAndStoreUrl] never touches a record that is there: in
    every state of a store the new record goes after the current ones,
    which stay as they are, and it carries the counter as its identifier
    and the two strings and the time it was given. *)
Theorem store_keeps_existing_records
    (this : MemStorage) (now : Z) (o r : string) :
  reachable this ->
  map_values (resolvedUrls (fst (resolveAndStoreUrl this now o r))) =
  map_values (resolvedUrls this)
    ++ [{| id := currentId this; originalUrl := o; resolvedUrl := r;
           timestamp := now |}] /\
  snd (resolveAndStoreUrl this now o r) =
  {| id := currentId this; originalUrl := o; resolvedUrl := r; timestamp := now |}.
Proof.
  intros Hr. apply store_inv_reachable in Hr. split; [|reflexivity].
  unfold map_values. rewrite (store_appends this now o r Hr), map_app.
  reflexivity.
Qed.

Lemma store_keeps_existing_records_witness :
  let this := fst (run constructor [OpStore 5 "a" "https://a/"; OpClear;
                                    OpStore 6 "b" "https://b/"]) in
  map id (map_values (resolvedUrls (fst (resolveAndStoreUrl this 7 "c" "https://c/"))))
  = [2; 3].
Proof.
  intros this.
  pose proof (proj1 (store_keeps_existing_records this 7 "c" "https://c/"
                       (reachable_run _))) as H.
  rewrite H. reflexivity.
Defined.

(** X2.  In every state of a store, after [resolveAndStoreUrl] the URLs
    [checkUrlExists] finds are the ones it found before and the resolved
    URL just stored. *)
Theorem stored_url_exists (this : MemStorage) (now : Z) (o r s : string) :
  reachable this ->
  checkUrlExists (fst (resolveAndStoreUrl this now o r)) s =
  checkUrlExists this s || String.eqb r s.
Proof.
  intros Hr. apply store_inv_reachable in Hr.
  unfold checkUrlExists, Js.array_some, map_values.
  rewrite (store_appends this now o r Hr), map_app, existsb_app.
  cbn [map snd existsb resolveAndStoreUrl resolvedUrl]. now rewrite orb_false_r.
Qed.

Lemma stored_url_exists_witness :
  let this := fst (run constructor [OpStore 5 "a" "https://a/"]) in
  checkUrlExists (fst (resolveAndStoreUrl this 6 "b" "https://b/")) "https://b/" = true /\
  checkUrlExists (fst (resolveAndStoreUrl this 6 "b" "https://b/")) "https://a/" = true /\
  checkUrlExists (fst (resolveAndStoreUrl this 6 "b" "https://b/")) "https://c/" = false.
Proof.
  intros this. split; [|split].
  - rewrite (stored_url_exists this 6 "b" "https://b/" "https://b/" (reachable_run _)).
    reflexivity.
  - rewrite (stored_url_exists this 6 "b" "https://b/" "https://a/" (reachable_run _)).
    reflexivity.
  - rewrite (stored_url_exists this 6 "b" "https://b/" "https://c/" (reachable_run _)).
    reflexivity.
Defined.

(** X3.  In every state of a store the current records have pairwise
    different identifiers, each at least 1 and below the counter, and each
    record sits under its own identifier as its key. *)
Theorem identifiers_of_current_records (this : MemStorage) :
  reachable this ->
  NoDup (map id (map_values (resolvedUrls this))) /\
  Forall (fun v => 1 <= id v < currentId this) (map_values (resolvedUrls this)) /\
  Forall (fun kv => fst kv = id (snd kv)) (resolvedUrls this).
Proof.
  intros [ops <-].
  pose proof (store_inv_run ops constructor store_inv_constructor) as [Hk Ho Hb].
  destruct (run_ids_from ops constructor store_inv_constructor ltac:(simpl; lia)
              ltac:(constructor)) as [_ Hpos].
  split; [|split].
  - clear - Ho. induction Ho as [| v l _ IH Hv]; cbn [map]; constructor; [|exact IH].
    intros Hin. apply in_map_iff in Hin. destruct Hin as (v' & Heq & Hin).
    rewrite Forall_forall in Hv. specialize (Hv v' Hin). lia.
  - rewrite Forall_forall in *. intros v Hv.
    specialize (Hb v Hv). specialize (Hpos v Hv). lia.
  - exact Hk.
Qed.

Lemma identifiers_of_current_records_witness :
  NoDup (map id (map_values (resolvedUrls
           (fst (run constructor [OpStore 5 "a" "https://a/"; OpClear;
                                  OpStore 6 "b" "https://b/";
                                  OpStore 6 "c" "https://c/"]))))).
Proof.
  exact (proj1 (identifiers_of_current_records _ (reachable_run _))).
Defined.

(** X4.  When every record was created at a later millisecond than the
    records stored before it, [getAllResolvedUrls] lists the records in
    the reverse of the order in which they were stored. *)
Theorem listing_reverses_insertion_order (this : MemStorage) :
  StronglySorted (fun a b => timestamp a < timestamp b)
                 (map_values (resolvedUrls this)) ->
  getAllResolvedUrls this = rev (map_values (resolvedUrls this)).
Proof.
  unfold getAllResolvedUrls.
  induction 1 as [| x l _ IH Hx]; [reflexivity|].
  cbn [Js.array_sort rev]. rewrite IH. apply sort_insert_oldest.
  rewrite Forall_forall in *. intros y Hy. apply Hx. now apply in_rev.
Qed.

Lemma listing_reverses_insertion_order_witness :
  map id (getAllResolvedUrls
            (fst (run constructor [OpStore 5 "a" "https://a/";
                                   OpStore 6 "b" "https://b/";
                                   OpStore 9 "c" "https://c/"]))) = [3; 2; 1].
Proof.
  rewrite (listing_reverses_insertion_order
             (fst (run constructor [OpStore 5 "a" "https://a/";
                                    OpStore 6 "b" "https://b/";
                                    OpStore 9 "c" "https://c/"]))).
  - reflexivity.
  - repeat constructor.
Defined.

(* ================================================================= *)
(** ** Further properties of the resolver *)

Section MoreResolverFacts.
Context {P : Platform}.

Lemma onResponse_return (u : string) (r : Response) (v : string) :
  onResponse u r = Return v -> v = u.
Proof.
  unfold onResponse.
  destruct ((300 <=? status r) && (status r <? 400)); [|congruence].
  destruct (location r) as [l |]; [|congruence].
  destruct (Js.truthy l); [|congruence].
  destruct (nextUrl u l); discriminate.
Qed.

Lemma attempt_return (w : World) (m : Method) (u : string) (w' : World)
    (v : string) :
  attempt w m u = (w', Return v) -> v = u.
Proof.
  unfold attempt. destruct (fetch w u (probeInit m)) as [w1 [e | r]].
  - discriminate.
  - intros [= _ H]. now apply onResponse_return in H.
Qed.

Lemma prefix_append (p s : string) : String.prefix p (p ++ s) = true.
Proof.
  induction p as [| a p IH]; simpl; [now destruct s|].
  destruct (ascii_dec a a); [exact IH | contradiction].
Qed.

(** How an iteration can end. *)
Lemma iteration_cases (w : World) (u : string) :
  let '(_, sent, s) := iteration w u in
  (sent = [probe HEAD u] \/ sent = [probe HEAD u; probe GET u]) /\
  match s with
  | Continue _ => True
  | Return v => v = u
  | Throw e => sent = [probe HEAD u; probe GET u] /\
               exists secondError, e = TransportFailure (causeOf secondError)
  end.
Proof.
  unfold iteration.
  destruct (attempt w HEAD u) as [w1 [next | v | e]] eqn:E1.
  - split; [now left | exact I].
  - split; [now left | now apply attempt_return in E1].
  - destruct (attempt w1 GET u) as [w2 [next | v | e2]] eqn:E2.
    + split; [now right | exact I].
    + split; [now right | now apply attempt_return in E2].
    + split; [now right|]. split; [reflexivity | now exists e2].
Qed.

(** A property of the probes and the completion that the end of the loop
    and every way an iteration can end establish holds of every run of
    the loop. *)
Lemma loop_establishes (maxRedirects : Z)
    (Q : string -> list Probe -> Thrown + string -> Prop) :
  (forall u, Q u [] (inl (TooManyRedirects maxRedirects))) ->
  (forall w u w' sent v,
      iteration w u = (w', sent, Return v) -> Q u sent (inr v)) ->
  (forall w u w' sent e,
      iteration w u = (w', sent, Throw e) -> Q u sent (inl e)) ->
  (forall w u w' sent next sent' completion,
      iteration w u = (w', sent, Continue next) ->
      Q next sent' completion -> Q u (sent ++ sent') completion) ->
  forall w u redirectCount,
    Q u (snd (fst (loop maxRedirects w u redirectCount)))
        (snd (loop maxRedirects w u redirectCount)).
Proof.
  intros Hend Hret Hthrow Hcont w u c.
  remember (Z.to_nat (maxRedirects - c)) as k eqn:Hk.
  revert w u c Hk. induction k as [| k IH]; intros w u c Hk; rewrite loop_body.
  - destruct (Z.ltb_spec c maxRedirects); [lia|]. apply Hend.
  - destruct (Z.ltb_spec c maxRedirects); [|apply Hend].
    destruct (iteration w u) as [[w' sent] [next | v | e]] eqn:E.
    + specialize (IH w' next (c + 1) ltac:(lia)).
      destruct (loop maxRedirects w' next (c + 1)) as [[w'' sent'] completion].
      cbn [fst snd] in IH |- *. now apply (Hcont w u w' sent next).
    + now apply (Hret w u w').
    + now apply (Hthrow w u w').
Qed.

Lemma loop_throws (maxRedirects : Z) (w : World) (u : string)
    (redirectCount : Z) (e : Thrown) :
  snd (loop maxRedirects w u redirectCount) = inl e ->
  (exists secondError, e = TransportFailure (causeOf secondError)) \/
  e = TooManyRedirects maxRedirects.
Proof.
  revert e.
  apply (loop_establishes maxRedirects
           (fun _ _ completion => forall e, completion = inl e ->
              (exists secondError, e = TransportFailure (causeOf secondError)) \/
              e = TooManyRedirects maxRedirects)).
  - intros u0 e [= <-]. now right.
  - discriminate.
  - intros w0 u0 w' sent e0 Hit e [= <-].
    pose proof (iteration_cases w0 u0) as Hc. rewrite Hit in Hc.
    left. exact (proj2 (proj2 Hc)).
  - intros w0 u0 w' sent next sent' completion _ IH. exact IH.
Qed.

End MoreResolverFacts.

(** X5.  What [followRedirects] probes first always starts with [http://]
    or [https://], and putting the protocol in front a second time changes
    nothing. *)
Theorem ensureProtocol_settles (url : string) :
  (Js.startsWith (ensureProtocol url) "http://" = true \/
   Js.startsWith (ensureProtocol url) "https://" = true) /\
  ensureProtocol (ensureProtocol url) = ensureProtocol url.
Proof.
  assert (H : Js.startsWith (ensureProtocol url) "http://" = true \/
              Js.startsWith (ensureProtocol url) "https://" = true).
  { unfold ensureProtocol.
    destruct (Js.startsWith url "http://") eqn:E1; [now left|].
    destruct (Js.startsWith url "https://") eqn:E2; [now right|].
    right. cbn [negb andb]. apply prefix_append. }
  split; [exact H|]. now apply ensureProtocol_with.
Qed.

(** X6.  With [maxRedirects] at zero or below, [followRedirects] sends no
    probe at all and throws the too-many-redirects error. *)
Theorem no_hops_allowed_no_probe
    {P : Platform} (w : World) (url : string) (maxRedirects : Z) :
  maxRedirects <= 0 ->
  followRedirects w url maxRedirects = (w, [], inl (TooManyRedirects maxRedirects)).
Proof.
  intros Hmax. unfold followRedirects. rewrite loop_body.
  now destruct (Z.ltb_spec 0 maxRedirects); [lia|].
Qed.

Lemma no_hops_allowed_no_probe_witness :
  followRedirects (P := Sample.platform) [Sample.ok] "https://example.com/" 0 =
  ([Sample.ok], [], inl (JsError "Too many redirects (max 0)")).
Proof.
  refine (no_hops_allowed_no_probe (P := Sample.platform) [Sample.ok]
            "https://example.com/" 0 _).
  lia.
Defined.

(** X7.  [followRedirects] throws nothing but its own two errors: the
    transport failure with the cause of a failed GET, and the
    too-many-redirects error. *)
Theorem followRedirects_throws_only_its_errors
    {P : Platform} (w : World) (url : string) (maxRedirects : Z) (e : Thrown) :
  snd (followRedirects w url maxRedirects) = inl e ->
  (exists secondError, e = TransportFailure (causeOf secondError)) \/
  e = TooManyRedirects maxRedirects.
Proof.
  intros He. unfold followRedirects in He.
  exact (loop_throws maxRedirects w (ensureProtocol url) 0 e He).
Qed.

Lemma followRedirects_throws_only_its_errors_witness :
  (exists secondError,
      JsError "Failed to resolve URL: connection reset" =
      TransportFailure (causeOf secondError)) \/
  JsError "Failed to resolve URL: connection reset" = TooManyRedirects 10.
Proof.
  refine (followRedirects_throws_only_its_errors (P := Sample.platform)
            [Sample.refused "no HEAD"; Sample.refused "connection reset"]
            "https://example.com/" 10 _ _).
  reflexivity.
Defined.

(** X8.  The probes of [followRedirects] come iteration by iteration: a
    HEAD probe, alone or followed at once by a GET probe to the same URL.
    No GET probe goes out without the HEAD probe to its URL just before
    it.  Every probe asks for manual redirects and carries one header,
    the User-Agent of a desktop Chrome. *)
Theorem followRedirects_probes_in_hops
    {P : Platform} (w : World) (url : string) (maxRedirects : Z) :
  Shapes.hops (snd (fst (followRedirects w url maxRedirects))) /\
  Forall (fun p : Probe =>
            redirect (snd p) = Manual /\
            headers (snd p) =
            [("User-Agent",
              "Mozilla/5.0 (Windows NT 10.0; Win64; x64) AppleWebKit/537.36 (KHTML, like Gecko) Chrome/91.0.4472.124 Safari/537.36")])
         (snd (fst (followRedirects w url maxRedirects))).
Proof.
  assert (H : Shapes.hops (snd (fst (followRedirects w url maxRedirects)))).
  { unfold followRedirects.
    apply (loop_establishes maxRedirects (fun _ sent _ => Shapes.hops sent)).
    - intros u. constructor.
    - intros w0 u w' sent v Hit.
      pose proof (iteration_cases w0 u) as Hc. rewrite Hit in Hc.
      destruct Hc as [[-> | ->] _];
        [apply Shapes.hops_head | apply Shapes.hops_head_get]; constructor.
    - intros w0 u w' sent e Hit.
      pose proof (iteration_cases w0 u) as Hc. rewrite Hit in Hc.
      destruct Hc as [[-> | ->] _];
        [apply Shapes.hops_head | apply Shapes.hops_head_get]; constructor.
    - intros w0 u w' sent next sent' completion Hit IH.
      pose proof (iteration_cases w0 u) as Hc. rewrite Hit in Hc.
      destruct Hc as [[-> | ->] _]; cbn [app];
        [apply Shapes.hops_head | apply Shapes.hops_head_get]; exact IH. }
  split; [exact H|].
  induction H as [| u rest _ IH | u rest _ IH]; repeat constructor; exact IH.
Qed.

(** A redirect answered to HEAD, then a refused HEAD and an answered
    GET: three probes, each with its method, URL and options. *)
Lemma followRedirects_probes_in_hops_witness :
  snd (fst (followRedirects (P := Sample.platform)
              [Sample.redirectTo "/b"; Sample.refused "no HEAD"; Sample.ok]
              "example.com/a" 10)) =
  [("https://example.com/a",
    {| method := HEAD; redirect := Manual;
       headers := [("User-Agent",
                    "Mozilla/5.0 (Windows NT 10.0; Win64; x64) AppleWebKit/537.36 (KHTML, like Gecko) Chrome/91.0.4472.124 Safari/537.36")] |});
   ("https://example.com/b",
    {| method := HEAD; redirect := Manual;
       headers := [("User-Agent",
                    "Mozilla/5.0 (Windows NT 10.0; Win64; x64) AppleWebKit/537.36 (KHTML, like Gecko) Chrome/91.0.4472.124 Safari/537.36")] |});
   ("https://example.com/b",
    {| method := GET; redirect := Manual;
       headers := [("User-Agent",
                    "Mozilla/5.0 (Windows NT 10.0; Win64; x64) AppleWebKit/537.36 (KHTML, like Gecko) Chrome/91.0.4472.124 Safari/537.36")] |})] /\
  Forall (fun p : Probe =>
            redirect (snd p) = Manual /\
            headers (snd p) =
            [("User-Agent",
              "Mozilla/5.0 (Windows NT 10.0; Win64; x64) AppleWebKit/537.36 (KHTML, like Gecko) Chrome/91.0.4472.124 Safari/537.36")])
         (snd (fst (followRedirects (P := Sample.platform)
                      [Sample.redirectTo "/b"; Sample.refused "no HEAD"; Sample.ok]
                      "example.com/a" 10))).
Proof.
  split; [reflexivity|].
  exact (proj2 (followRedirects_probes_in_hops (P := Sample.platform)
                  [Sample.redirectTo "/b"; Sample.refused "no HEAD"; Sample.ok]
                  "example.com/a" 10)).
Defined.

(** X9.  A URL that [followRedirects] returns is the URL of the last probe
    it sent: it never returns a URL it has not probed. *)
Theorem resolved_url_was_probed_last
    {P : Platform} (w : World) (url : string) (maxRedirects : Z) (v : string) :
  snd (followRedirects w url maxRedirects) = inr v ->
  exists m before,
    snd (fst (followRedirects w url maxRedirects)) = before ++ [probe m v].
Proof.
  unfold followRedirects. revert v.
  apply (loop_establishes maxRedirects
           (fun _ sent completion => forall v, completion = inr v ->
              exists m before, sent = before ++ [probe m v])).
  - discriminate.
  - intros w0 u w' sent v0 Hit v [= <-].
    pose proof (iteration_cases w0 u) as Hc. rewrite Hit in Hc.
    destruct Hc as [[-> | ->] ->].
    + now exists HEAD, [].
    + now exists GET, [probe HEAD u].
  - discriminate.
  - intros w0 u w' sent next sent' completion _ IH v Hv.
    destruct (IH v Hv) as (m & before & ->).
    exists m, (sent ++ before). now rewrite app_assoc.
Qed.

Lemma resolved_url_was_probed_last_witness :
  exists m before,
    snd (fst (followRedirects (P := Sample.platform)
                [Sample.redirectTo "/b"; Sample.refused "no HEAD"; Sample.ok]
                "example.com/a" 10)) =
    before ++ [probe m "https://example.com/b"].
Proof.
  refine (resolved_url_was_probed_last (P := Sample.platform)
            [Sample.redirectTo "/b"; Sample.refused "no HEAD"; Sample.ok]
            "example.com/a" 10 "https://example.com/b" _).
  reflexivity.
Defined.

(** X10.  A redirect whose Location cannot be made into a URL counts as a
    failed HEAD: the iteration sends the GET probe.  When the GET brings
    such a redirect again, the resolution fails with the message of the
    URL error as its cause; when the GET brings a response that is not a
    redirect, the current URL is the result. *)
Theorem unusable_location_is_retried
    {P : Platform} (w : World) (u : string) (w1 : World) (r : Response)
    (l : string) (e : Thrown) (w2 : World) (r2 : Response) :
  fetch w u (probeInit HEAD) = (w1, inr r) ->
  Props.redirectLocation r = Some l ->
  nextUrl u l = inl e ->
  fetch w1 u (probeInit GET) = (w2, inr r2) ->
  (forall l2 e2,
      Props.redirectLocation r2 = Some l2 -> nextUrl u l2 = inl e2 ->
      iteration w u =
      (w2, [probe HEAD u; probe GET u], Throw (TransportFailure (causeOf e2)))) /\
  (Props.redirectLocation r2 = None ->
   iteration w u = (w2, [probe HEAD u; probe GET u], Return u)).
Proof.
  intros Hhead Hl Hn Hget.
  assert (E1 : attempt w HEAD u = (w1, Throw e)).
  { unfold attempt. now rewrite Hhead, (onResponse_redirect _ _ _ Hl), Hn. }
  split.
  - intros l2 e2 Hl2 Hn2. unfold iteration. rewrite E1. unfold attempt.
    now rewrite Hget, (onResponse_redirect _ _ _ Hl2), Hn2.
  - intros Hl2. unfold iteration. rewrite E1. unfold attempt.
    now rewrite Hget, (onResponse_final _ _ Hl2).
Qed.

Lemma unusable_location_is_retried_witness :
  iteration (P := Sample.platform)
    [Sample.redirectTo "ftp://"; Sample.redirectTo "ftp://"]
    "https://host/a" =
  ([], [probe HEAD "https://host/a"; probe GET "https://host/a"],
   Throw (JsError "Failed to resolve URL: Invalid URL")) /\
  iteration (P := Sample.platform)
    [Sample.redirectTo "ftp://"; Sample.ok] "https://host/a" =
  ([], [probe HEAD "https://host/a"; probe GET "https://host/a"],
   Return "https://host/a").
Proof.
  split.
  - refine (proj1 (unusable_location_is_retried (P := Sample.platform)
                     [Sample.redirectTo "ftp://"; Sample.redirectTo "ftp://"]
                     "https://host/a" [Sample.redirectTo "ftp://"]
                     {| status := 302; location := Some "ftp://" |}
                     "ftp://" (JsError "Invalid URL") []
                     {| status := 302; location := Some "ftp://" |}
                     _ _ _ _)
              "ftp://" (JsError "Invalid URL") _ _); reflexivity.
  - refine (proj2 (unusable_location_is_retried (P := Sample.platform)
                     [Sample.redirectTo "ftp://"; Sample.ok]
                     "https://host/a" [Sample.ok]
                     {| status := 302; location := Some "ftp://" |}
                     "ftp://" (JsError "Invalid URL") []
                     {| status := 200; location := None |}
                     _ _ _ _)
              _); reflexivity.
Defined.

(* ================================================================= *)
(** ** Further properties of the server *)

Section ServerFacts.
Context {P : Platform}.

Lemma map_set_In (m : NumMap) (k : Z) (v : ResolvedUrl) :
  In (k, v) (map_set m k v).
Proof.
  induction m as [| [k' v'] m IH]; cbn [map_set]; [now left|].
  destruct (k' =? k); [now left | now right].
Qed.

Lemma stored_is_found (this : MemStorage) (now : Z) (o r : string) :
  checkUrlExists (fst (resolveAndStoreUrl this now o r)) r = true.
Proof.
  unfold checkUrlExists, Js.array_some. apply existsb_exists.
  exists (snd (resolveAndStoreUrl this now o r)). split.
  - unfold map_values. apply in_map_iff.
    exists (currentId this, snd (resolveAndStoreUrl this now o r)).
    split; [reflexivity | apply map_set_In].
  - apply String.eqb_refl.
Qed.

(** The five ways the handler of [POST /api/resolve-url] can go. *)
Lemma resolveUrl_cases (storage : MemStorage) (w : World) (now : Z)
    (body : Body) :
  (exists errors,
      urlResolveSchema_parse body = inl errors /\
      resolveUrl storage w now body =
      (storage, w, [],
       {| code := 400; payload := PInvalid "Invalid URL format" errors |})) \/
  (exists url w' sent e,
      urlResolveSchema_parse body = inr url /\
      followRedirects w url defaultMaxRedirects = (w', sent, inl e) /\
      resolveUrl storage w now body =
      (storage, w', sent, resolveUrlCatch (Other e))) \/
  (exists url w' sent r,
      urlResolveSchema_parse body = inr url /\
      followRedirects w url defaultMaxRedirects = (w', sent, inr r) /\
      checkUrlExists storage r = true /\
      resolveUrl storage w now body =
      (storage, w', sent,
       {| code := 409;
          payload := PConflict "URL already exists in the list" r |})) \/
  (exists url w' sent r,
      urlResolveSchema_parse body = inr url /\
      followRedirects w url defaultMaxRedirects = (w', sent, inr r) /\
      checkUrlExists storage r = false /\
      resolveUrl storage w now body =
      (fst (resolveAndStoreUrl storage now url r), w', sent,
       {| code := 200;
          payload := PRecord (snd (resolveAndStoreUrl storage now url r)) |})).
Proof.
  unfold resolveUrl, resolveUrlTry.
  destruct (urlResolveSchema_parse body) as [errors | url].
  - left. now exists errors.
  - right.
    destruct (followRedirects w url defaultMaxRedirects) as [[w' sent] [e | r]] eqn:E.
    + left. now exists url, w', sent, e.
    + right. destruct (checkUrlExists storage r) eqn:Hex.
      * left. now exists url, w', sent, r.
      * right. now exists url, w', sent, r.
Qed.

Lemma resolveUrlCatch_code (e : Thrown) : code (resolveUrlCatch (Other e)) = 500.
Proof. now destruct e. Qed.

Lemma run_snoc (ops : list Op) (op : Op) (this : MemStorage) :
  fst (run this (ops ++ [op])) = fst (apply_op (fst (run this ops)) op).
Proof.
  revert this. induction ops as [| o ops IH]; intros this; cbn [app run fst].
  - destruct (apply_op this op) as [this1 ids1]. reflexivity.
  - destruct (apply_op this o) as [this1 ids1]. specialize (IH this1).
    destruct (run this1 (ops ++ [op])) as [this2 ids2].
    destruct (run this1 ops) as [this3 ids3]. exact IH.
Qed.

Lemma reachable_store (this : MemStorage) (now : Z) (o r : string) :
  reachable this -> reachable (fst (resolveAndStoreUrl this now o r)).
Proof.
  intros [ops <-]. exists (ops ++ [OpStore now o r]). rewrite run_snoc.
  cbn [apply_op]. now destruct (resolveAndStoreUrl (fst (run constructor ops)) now o r).
Qed.

Lemma reachable_clear (this : MemStorage) :
  reachable this -> reachable (clearAllResolvedUrls this).
Proof.
  intros [ops <-]. exists (ops ++ [OpClear]). now rewrite run_snoc.
Qed.

Lemma not_found_not_in (storage : MemStorage) (r : string) :
  checkUrlExists storage r = false ->
  ~ In r (map resolvedUrl (map_values (resolvedUrls storage))).
Proof.
  intros Hex Hin. apply in_map_iff in Hin. destruct Hin as (v & Hv & Hin).
  assert (checkUrlExists storage r = true); [|congruence].
  unfold checkUrlExists, Js.array_some. apply existsb_exists.
  exists v. split; [exact Hin | now apply String.eqb_eq].
Qed.

Lemma NoDup_snoc {A : Type} (l : list A) (x : A) :
  NoDup l -> ~ In x l -> NoDup (l ++ [x]).
Proof.
  intros Hl Hx. apply NoDup_rev in Hl. rewrite <- (rev_involutive (l ++ [x])).
  apply NoDup_rev. rewrite rev_app_distr. cbn [rev app].
  constructor; [|exact Hl]. now rewrite <- in_rev.
Qed.

Lemma served_serve (state : MemStorage * World) (request : Api.Request) :
  Shapes.served (fst state) -> Shapes.served (fst (Api.serve state request)).
Proof.
  destruct state as [storage w]. intros [Hr Hnd]. cbn [fst] in *.
  destruct request as [now body | |]; cbn [Api.serve].
  - destruct (resolveUrl_cases storage w now body)
      as [(errors & _ & ->)
         | [(url & w' & sent & e & _ & _ & ->)
           | [(url & w' & sent & r & _ & _ & _ & ->)
             | (url & w' & sent & r & _ & _ & Hex & ->)]]];
      cbn [fst]; try (now split).
    split; [now apply reachable_store|].
    apply store_inv_reachable in Hr. unfold map_values.
    rewrite (store_appends storage now url r Hr), !map_app.
    apply NoDup_snoc; [exact Hnd | now apply not_found_not_in].
  - now split.
  - split; [now apply reachable_clear | constructor].
Qed.

Lemma served_fold (requests : list Api.Request) (state : MemStorage * World) :
  Shapes.served (fst state) -> Shapes.served (fst (fold_left Api.serve requests state)).
Proof.
  revert state. induction requests as [| request requests IH]; intros state Hs.
  - exact Hs.
  - cbn [fold_left]. apply IH. now apply served_serve.
Qed.

Lemma served_serveAll (w : World) (requests : list Api.Request) :
  Shapes.served (fst (Api.serveAll w requests)).
Proof.
  apply served_fold. split; [now exists [] | constructor].
Qed.

End ServerFacts.

(** X11.  The handler of [POST /api/resolve-url] replies with one of the
    statuses 200, 400, 409 and 500, and it changes the store with status
    200 only: then the store has the one new record the reply carries.
    With status 400 nothing was sent to the network. *)
Theorem resolveUrl_changes_store_on_success_only
    {P : Platform} (storage : MemStorage) (w : World) (now : Z) (body : Body) :
  let '(storage', w', sent, reply) := resolveUrl storage w now body in
  (code reply = 200 /\
   exists url r,
     urlResolveSchema_parse body = inr url /\
     snd (followRedirects w url defaultMaxRedirects) = inr r /\
     checkUrlExists storage r = false /\
     storage' = fst (resolveAndStoreUrl storage now url r) /\
     payload reply = PRecord (snd (resolveAndStoreUrl storage now url r))) \/
  (code reply = 400 /\ storage' = storage /\ w' = w /\ sent = []) \/
  ((code reply = 409 \/ code reply = 500) /\ storage' = storage).
Proof.
  destruct (resolveUrl_cases storage w now body)
    as [(errors & _ & ->)
       | [(url & w' & sent & e & _ & _ & ->)
         | [(url & w' & sent & r & _ & _ & _ & ->)
           | (url & w' & sent & r & Hp & Hf & Hex & ->)]]].
  - right. left. now repeat split.
  - right. right. split; [right; apply resolveUrlCatch_code | reflexivity].
  - right. right. split; [now left | reflexivity].
  - left. split; [reflexivity|]. exists url, r. rewrite Hf. now repeat split.
Qed.

(** X12.  When the resolution fails the reply has status 500 and the
    message of one of the two errors of [followRedirects]: the text on too
    many redirects with the limit of 10, or the text on the failed
    resolution followed by the cause.  The fallback text of the handler is
    never sent alone. *)
Theorem resolveUrl_failure_message
    {P : Platform} (storage : MemStorage) (w : World) (now : Z) (body : Body)
    (url : string) (e : Thrown) :
  urlResolveSchema_parse body = inr url ->
  snd (followRedirects w url defaultMaxRedirects) = inl e ->
  code (snd (resolveUrl storage w now body)) = 500 /\
  (payload (snd (resolveUrl storage w now body)) =
   PMessage "Too many redirects (max 10)" \/
   exists secondError,
     payload (snd (resolveUrl storage w now body)) =
     PMessage ("Failed to resolve URL: " ++ causeOf secondError)%string).
Proof.
  intros Hp He.
  assert (E : snd (resolveUrl storage w now body) = resolveUrlCatch (Other e)).
  { unfold resolveUrl, resolveUrlTry. rewrite Hp.
    destruct (followRedirects w url defaultMaxRedirects) as [[w' sent] c].
    cbn [snd] in He. now subst c. }
  rewrite E. unfold followRedirects in He.
  destruct (loop_throws _ _ _ _ _ He) as [(e2 & ->) | ->].
  - split; [reflexivity|]. right. now exists e2.
  - split; [reflexivity|]. now left.
Qed.

Lemma resolveUrl_failure_message_witness :
  let reply :=
    snd (resolveUrl (P := Sample.platform) constructor
           [Sample.refused "no HEAD"; Sample.refused "connection reset"] 1000
           "https://example.com/") in
  code reply = 500 /\
  (payload reply = PMessage "Too many redirects (max 10)" \/
   exists secondError,
     payload reply =
     PMessage ("Failed to resolve URL: " ++ causeOf secondError)%string).
Proof.
  refine (resolveUrl_failure_message (P := Sample.platform) constructor
            [Sample.refused "no HEAD"; Sample.refused "connection reset"] 1000
            "https://example.com/" "https://example.com/"
            (JsError "Failed to resolve URL: connection reset") _ _);
    reflexivity.
Defined.

(** X13.  However many requests the server has answered, one after the
    other, the store is in a state the store operations lead to, no two
    of its records have the same resolved URL, and so the list that
    [GET /api/resolved-urls] sends names no resolved URL twice. *)
Theorem served_store_has_each_url_once
    {P : Platform} (w : World) (requests : list Api.Request) :
  reachable (fst (Api.serveAll w requests)) /\
  NoDup (map resolvedUrl (map_values (resolvedUrls (fst (Api.serveAll w requests))))) /\
  NoDup (map resolvedUrl (snd (Api.listResolvedUrls (fst (Api.serveAll w requests))))).
Proof.
  destruct (served_serveAll w requests) as [Hr Hnd].
  split; [exact Hr|]. split; [exact Hnd|].
  unfold Api.listResolvedUrls, getAllResolvedUrls. cbn [snd].
  eapply Permutation_NoDup; [|exact Hnd].
  apply Permutation_map, array_sort_perm.
Qed.

Section ConflictFacts.
Context {P : Platform}.

Lemma found_after_store (this : MemStorage) (now : Z) (o r s : string) :
  reachable this ->
  checkUrlExists this s = true ->
  checkUrlExists (fst (resolveAndStoreUrl this now o r)) s = true.
Proof.
  intros Hr Hs. apply store_inv_reachable in Hr.
  unfold checkUrlExists, Js.array_some, map_values in *.
  rewrite (store_appends this now o r Hr), map_app, existsb_app, Hs.
  reflexivity.
Qed.

(** A request that is no deletion leaves what [checkUrlExists] finds. *)
Lemma found_after_serve (state : MemStorage * World) (request : Api.Request)
    (s : string) :
  request <> Api.DeleteResolvedUrls ->
  reachable (fst state) ->
  checkUrlExists (fst state) s = true ->
  reachable (fst (Api.serve state request)) /\
  checkUrlExists (fst (Api.serve state request)) s = true.
Proof.
  destruct state as [storage w]. cbn [fst]. intros Hreq Hr Hs.
  destruct request as [now body | |]; cbn [Api.serve]; [| now split | congruence].
  destruct (resolveUrl_cases storage w now body)
    as [(errors & _ & ->)
       | [(url & w' & sent & e & _ & _ & ->)
         | [(url & w' & sent & r & _ & _ & _ & ->)
           | (url & w' & sent & r & _ & _ & _ & ->)]]];
    cbn [fst]; try (now split).
  split; [now apply reachable_store | now apply found_after_store].
Qed.

Lemma found_after_requests (requests : list Api.Request)
    (state : MemStorage * World) (s : string) :
  Forall (fun request => request <> Api.DeleteResolvedUrls) requests ->
  reachable (fst state) ->
  checkUrlExists (fst state) s = true ->
  checkUrlExists (fst (fold_left Api.serve requests state)) s = true.
Proof.
  intros Hall. revert state.
  induction Hall as [| request requests Hreq _ IH]; intros state Hr Hs.
  - exact Hs.
  - cbn [fold_left].
    destruct (found_after_serve state request s Hreq Hr Hs) as [Hr' Hs'].
    now apply IH.
Qed.

End ConflictFacts.

(** X14.  Once a request has been answered with status 200 and a record,
    every later request whose input resolves to the resolved URL of that
    record is answered with the conflict and leaves the store as it is,
    whatever requests were served in between, as long as none of them was
    [DELETE /api/resolved-urls]. *)
Theorem accepted_url_conflicts_afterwards
    {P : Platform} (storage : MemStorage) (w : World) (now : Z) (body : Body)
    (result : ResolvedUrl)
    (between : list Api.Request) (w1 : World)
    (w2 : World) (now2 : Z) (body2 : Body) (url2 : string) :
  reachable storage ->
  payload (snd (resolveUrl storage w now body)) = PRecord result ->
  Forall (fun request => request <> Api.DeleteResolvedUrls) between ->
  urlResolveSchema_parse body2 = inr url2 ->
  snd (followRedirects w2 url2 defaultMaxRedirects) = inr (resolvedUrl result) ->
  let later :=
    fst (fold_left Api.serve between
                   (fst (fst (fst (resolveUrl storage w now body))), w1)) in
  fst (fst (fst (resolveUrl later w2 now2 body2))) = later /\
  snd (resolveUrl later w2 now2 body2) =
  {| code := 409;
     payload := PConflict "URL already exists in the list" (resolvedUrl result) |}.
Proof.
  intros Hreach Hpay Hbetween Hp2 Hf2 later.
  assert (Hfirst : reachable (fst (fst (fst (resolveUrl storage w now body)))) /\
                   checkUrlExists (fst (fst (fst (resolveUrl storage w now body))))
                                  (resolvedUrl result) = true).
  { destruct (resolveUrl_cases storage w now body)
      as [(errors & _ & E)
         | [(url & w' & sent & e & _ & _ & E)
           | [(url & w' & sent & r & _ & _ & _ & E)
             | (url & w' & sent & r & _ & _ & _ & E)]]];
      rewrite E in Hpay |- *; cbn [fst snd payload] in Hpay |- *.
    - discriminate.
    - destruct e; discriminate.
    - discriminate.
    - injection Hpay as <-.
      split; [now apply reachable_store | apply stored_is_found]. }
  destruct Hfirst as [Hr1 Hex1].
  assert (Hex : checkUrlExists later (resolvedUrl result) = true).
  { subst later. now apply found_after_requests. }
  destruct (followRedirects w2 url2 defaultMaxRedirects) as [[w2' sent2] c] eqn:E2.
  cbn [snd] in Hf2. subst c.
  unfold resolveUrl, resolveUrlTry. rewrite Hp2, E2, Hex. now split.
Qed.

(** A URL is accepted; another URL is accepted and the list is read; then
    the first URL comes again, now directly, and is a conflict. *)
Lemma accepted_url_conflicts_afterwards_witness :
  let first :=
    resolveUrl (P := Sample.platform) constructor
               [Sample.redirectTo "https://example.com/b"; Sample.ok]
               1000 "https://short.example/x" in
  let later :=
    fst (fold_left Api.serve
                   [@Api.PostResolveUrl Sample.platform 1500 "https://example.com/c";
                    @Api.GetResolvedUrls Sample.platform]
                   (fst (fst (fst first)), [Sample.ok])) in
  map resolvedUrl (snd (Api.listResolvedUrls later)) =
  ["https://example.com/c"; "https://example.com/b"] /\
  snd (resolveUrl (P := Sample.platform) later [Sample.ok] 2000
                  "https://example.com/b") =
  {| code := 409;
     payload := PConflict "URL already exists in the list" "https://example.com/b" |}.
Proof.
  intros first later. split; [reflexivity|].
  refine (proj2 (accepted_url_conflicts_afterwards (P := Sample.platform)
                   constructor
                   [Sample.redirectTo "https://example.com/b"; Sample.ok]
                   1000 "https://short.example/x"
                   {| id := 1; originalUrl := "https://short.example/x";
                      resolvedUrl := "https://example.com/b"; timestamp := 1000 |}
                   [@Api.PostResolveUrl Sample.platform 1500 "https://example.com/c";
                    @Api.GetResolvedUrls Sample.platform]
                   [Sample.ok]
                   [Sample.ok] 2000 "https://example.com/b" "https://example.com/b"
                   _ _ _ _ _)).
  - now exists [].
  - reflexivity.
  - repeat constructor; discriminate.
  - reflexivity.
  - reflexivity.
Defined.

(** X15.  After [DELETE /api/resolved-urls] the list is empty, and a
    request whose input resolves is accepted whatever was stored before:
    the reply is the new record, whose identifier is the counter as it was
    before the deletion, and the list is that one record. *)
Theorem cleared_store_accepts_again
    {P : Platform} (storage : MemStorage) (w : World) (now : Z) (body : Body)
    (url r : string) :
  urlResolveSchema_parse body = inr url ->
  snd (followRedirects w url defaultMaxRedirects) = inr r ->
  let cleared := fst (Api.clearResolvedUrls storage) in
  let result := {| id := currentId storage; originalUrl := url;
                   resolvedUrl := r; timestamp := now |} in
  Api.listResolvedUrls cleared = (200, []) /\
  snd (resolveUrl cleared w now body) =
  {| code := 200; payload := PRecord result |} /\
  Api.listResolvedUrls (fst (fst (fst (resolveUrl cleared w now body)))) =
  (200, [result]).
Proof.
  intros Hp Hf cleared result.
  destruct (followRedirects w url defaultMaxRedirects) as [[w' sent] c] eqn:E.
  cbn [snd] in Hf. subst c.
  split; [reflexivity|].
  unfold resolveUrl, resolveUrlTry. rewrite Hp, E. now split.
Qed.

Lemma cleared_store_accepts_again_witness :
  let storage :=
    fst (fst (fst (resolveUrl (P := Sample.platform) constructor [Sample.ok] 1000
                              "https://example.com/a"))) in
  snd (resolveUrl (P := Sample.platform) (fst (Api.clearResolvedUrls storage))
         [Sample.ok] 2000 "https://example.com/a") =
  {| code := 200;
     payload := PRecord {| id := 2; originalUrl := "https://example.com/a";
                           resolvedUrl := "https://example.com/a";
                           timestamp := 2000 |} |}.
Proof.
  intros storage.
  refine (proj1 (proj2 (cleared_store_accepts_again (P := Sample.platform)
                          storage [Sample.ok] 2000 "https://example.com/a"
                          "https://example.com/a" "https://example.com/a" _ _)));
    reflexivity.
Defined.

(* ================================================================= *)
(** ** Properties of the analysis and of the client *)

Section LineFacts.

Lemma split_nonempty (sep : ascii) (s : string) : Js.split sep s <> [].
Proof.
  destruct s as [| c s]; cbn [Js.split]; [discriminate|].
  destruct (Ascii.eqb c sep); [discriminate|].
  destruct (Js.split sep s); discriminate.
Qed.

(** Splitting a text made of two texts with a separator between them. *)
Lemma split_app (sep : ascii) (a b : string) :
  Js.split sep (a ++ String sep b) = Js.split sep a ++ Js.split sep b.
Proof.
  induction a as [| c a IH]; cbn [append Js.split].
  - now rewrite Ascii.eqb_refl.
  - destruct (Ascii.eqb c sep); [now rewrite IH|].
    rewrite IH. pose proof (split_nonempty sep a) as Hne.
    destruct (Js.split sep a) as [| piece pieces]; [contradiction | reflexivity].
Qed.

Lemma linesOf_app (a b : string) :
  linesOf (a ++ String Js.LF b) = linesOf a ++ linesOf b.
Proof.
  unfold linesOf. now rewrite split_app, map_app, filter_app.
Qed.

Lemma linesOf_empty : linesOf EmptyString = [].
Proof. reflexivity. Qed.

Lemma linesOf_join (files : list string) :
  linesOf (Client.join (String Js.LF EmptyString) files) = flat_map linesOf files.
Proof.
  induction files as [| x files IH]; [reflexivity|].
  destruct files as [| y files].
  - cbn [Client.join flat_map]. now rewrite app_nil_r.
  - change (Client.join (String Js.LF EmptyString) (x :: y :: files))
      with (x ++ String Js.LF (Client.join (String Js.LF EmptyString) (y :: files)))%string.
    rewrite linesOf_app, IH. reflexivity.
Qed.

(** White space at both ends. *)
Lemma trimStart_blank (s : string) :
  Js.trimStart s = EmptyString <-> Shapes.blank s = true.
Proof.
  induction s as [| c s IH]; cbn [Js.trimStart Shapes.blank]; [now split|].
  destruct (Js.isWhiteSpace c); cbn [andb]; [exact IH|].
  split; discriminate.
Qed.

Lemma trimEnd_blank (s : string) :
  Js.trimEnd s = EmptyString <-> Shapes.blank s = true.
Proof.
  induction s as [| c s IH]; cbn [Js.trimEnd Shapes.blank]; [now split|].
  destruct (Js.trimEnd s) as [| d t].
  - destruct (Js.isWhiteSpace c); cbn [andb].
    + split; [intros _; now apply IH | reflexivity].
    + split; discriminate.
  - split; [discriminate|]. intros H. apply andb_true_iff in H.
    destruct H as [_ H]. apply IH in H. discriminate.
Qed.

Lemma blank_trimStart (s : string) :
  Shapes.blank (Js.trimStart s) = Shapes.blank s.
Proof.
  induction s as [| c s IH]; cbn [Js.trimStart Shapes.blank]; [reflexivity|].
  destruct (Js.isWhiteSpace c) eqn:E; cbn [andb Shapes.blank]; [exact IH|].
  now rewrite E.
Qed.

Lemma trim_blank (s : string) :
  Js.trim s = EmptyString <-> Shapes.blank s = true.
Proof.
  unfold Js.trim. rewrite trimEnd_blank, blank_trimStart. reflexivity.
Qed.

Lemma blank_split (s : string) :
  forallb Shapes.blank (Js.split Js.LF s) = Shapes.blank s.
Proof.
  induction s as [| c s IH]; [reflexivity|].
  cbn [Js.split Shapes.blank].
  destruct (Ascii.eqb_spec c Js.LF) as [-> | Hne].
  - cbn [forallb Shapes.blank]. exact IH.
  - pose proof (split_nonempty Js.LF s) as Hn.
    destruct (Js.split Js.LF s) as [| piece pieces]; [contradiction|].
    cbn [forallb Shapes.blank] in IH |- *. rewrite <- IH.
    now rewrite andb_assoc.
Qed.

Lemma trimmed_lines_nil_iff (pieces : list string) :
  filter (fun line => 0 <? Js.length line)
         (map (fun line => Js.trim line) pieces) = [] <->
  forallb Shapes.blank pieces = true.
Proof.
  induction pieces as [| s pieces IH]; cbn [map filter forallb]; [now split|].
  rewrite nonempty_length.
  destruct (Shapes.blank s) eqn:B.
  - apply trim_blank in B. rewrite B. cbn [String.eqb negb andb]. exact IH.
  - destruct (String.eqb_spec (Js.trim s) "") as [E | _].
    + apply trim_blank in E. congruence.
    + cbn [negb andb]. split; discriminate.
Qed.

(** A text has no lines exactly when it is white space only. *)
Lemma linesOf_nil_iff (text : string) :
  linesOf text = [] <-> Shapes.blank text = true.
Proof.
  unfold linesOf. rewrite trimmed_lines_nil_iff, blank_split. reflexivity.
Qed.

End LineFacts.

Section UniqueFacts.

Lemma firstOccurrences_In (x : string) (l : list string) :
  In x (Spec.firstOccurrences l) <-> In x l.
Proof.
  induction l as [| y l IH]; cbn [Spec.firstOccurrences]; [reflexivity|].
  cbn [In]. rewrite filter_In, IH.
  destruct (String.eqb_spec x y) as [-> | Hne]; cbn [negb].
  - split; intros _; now left.
  - split.
    + intros [H | [H _]]; [now left | now right].
    + intros [H | H]; [now left | right; now split].
Qed.

Lemma firstOccurrences_NoDup (l : list string) :
  NoDup (Spec.firstOccurrences l).
Proof.
  induction l as [| x l IH]; cbn [Spec.firstOccurrences]; constructor.
  - rewrite filter_In. intros [_ H]. now rewrite String.eqb_refl in H.
  - now apply NoDup_filter.
Qed.

Lemma filter_all {A : Type} (p : A -> bool) (l : list A) :
  Forall (fun x => p x = true) l -> filter p l = l.
Proof.
  induction 1 as [| x l Hx _ IH]; cbn [filter]; [reflexivity|].
  now rewrite Hx, IH.
Qed.

Lemma firstOccurrences_of_NoDup (l : list string) :
  NoDup l -> Spec.firstOccurrences l = l.
Proof.
  induction 1 as [| x l Hx _ IH]; cbn [Spec.firstOccurrences]; [reflexivity|].
  rewrite IH. f_equal. apply filter_all. rewrite Forall_forall.
  intros y Hy. destruct (String.eqb_spec y x) as [-> | _]; [contradiction | reflexivity].
Qed.

Lemma firstOccurrences_length (l : list string) :
  (List.length (Spec.firstOccurrences l) <= List.length l)%nat.
Proof.
  induction l as [| x l IH]; cbn [Spec.firstOccurrences List.length]; [lia|].
  pose proof (filter_length_le (fun y => negb (String.eqb y x))
                               (Spec.firstOccurrences l)).
  lia.
Qed.

Lemma firstOccurrences_full (l : list string) :
  List.length (Spec.firstOccurrences l) = List.length l -> NoDup l.
Proof.
  induction l as [| x l IH]; cbn [Spec.firstOccurrences List.length];
    [constructor|].
  intros Hlen.
  pose proof (filter_length_le (fun y => negb (String.eqb y x))
                               (Spec.firstOccurrences l)) as H1.
  pose proof (firstOccurrences_length l) as H2.
  assert (Hf : List.length (filter (fun y => negb (String.eqb y x))
                                   (Spec.firstOccurrences l)) =
               List.length (Spec.firstOccurrences l)) by lia.
  apply filter_length_forallb in Hf. rewrite forallb_forall in Hf.
  constructor; [|apply IH; lia].
  intros Hin. apply firstOccurrences_In in Hin. specialize (Hf x Hin).
  now rewrite String.eqb_refl in Hf.
Qed.

(** The filter of the duplicate-checker page and the [Set] of the server
    keep the same lines. *)
Lemma filterUnseen_firstOccurrences (l seen : list string) :
  Client.filterUnseen seen l =
  Spec.firstOccurrences (filter (fun y => negb (existsb (String.eqb y) seen)) l).
Proof.
  revert seen. induction l as [| x l IH]; intros seen; [reflexivity|].
  cbn [Client.filterUnseen filter].
  destruct (existsb (String.eqb x) seen) eqn:Hin; cbn [negb].
  - apply IH.
  - cbn [Spec.firstOccurrences]. f_equal. rewrite IH.
    unfold Js.set_add. rewrite Hin.
    rewrite filter_not_in_snoc. apply firstOccurrences_filter.
Qed.

Lemma filterUnseen_new_Set (l : list string) :
  Client.filterUnseen [] l = Js.new_Set l.
Proof.
  rewrite filterUnseen_firstOccurrences, new_Set_firstOccurrences.
  f_equal. apply filter_all. rewrite Forall_forall. reflexivity.
Qed.

End UniqueFacts.

Section TrimmedFacts.

Lemma trimStart_head (s : string) :
  match Js.trimStart s with
  | EmptyString => True
  | String c _ => Js.isWhiteSpace c = false
  end.
Proof.
  induction s as [| c s IH]; cbn [Js.trimStart]; [exact I|].
  destruct (Js.isWhiteSpace c) eqn:E; [exact IH | exact E].
Qed.

Lemma trimEnd_idem (s : string) : Js.trimEnd (Js.trimEnd s) = Js.trimEnd s.
Proof.
  induction s as [| c s IH]; [reflexivity|].
  cbn [Js.trimEnd]. destruct (Js.trimEnd s) as [| d t] eqn:E.
  - destruct (Js.isWhiteSpace c) eqn:W; [reflexivity|].
    cbn [Js.trimEnd]. now rewrite W.
  - cbn [Js.trimEnd]. cbn [Js.trimEnd] in IH.
    destruct (Js.trimEnd t) as [| d' t'] eqn:E'.
    + destruct (Js.isWhiteSpace d) eqn:Wd; [discriminate|].
      now rewrite IH.
    + now rewrite IH.
Qed.

Lemma trimEnd_head (c : ascii) (s : string) :
  Js.isWhiteSpace c = false ->
  exists t, Js.trimEnd (String c s) = String c t.
Proof.
  intros W. cbn [Js.trimEnd]. destruct (Js.trimEnd s) as [| d t].
  - rewrite W. now exists EmptyString.
  - now exists (String d t).
Qed.

(** Trimming twice is trimming once. *)
Lemma trim_idem (s : string) : Js.trim (Js.trim s) = Js.trim s.
Proof.
  unfold Js.trim. pose proof (trimStart_head s) as H.
  destruct (Js.trimStart s) as [| c t]; [reflexivity|].
  destruct (trimEnd_head c t H) as (t' & E). rewrite E.
  assert (Hs : Js.trimStart (String c t') = String c t')
    by (cbn [Js.trimStart]; now rewrite H).
  rewrite Hs, <- E. apply trimEnd_idem.
Qed.

Lemma split_oneLine (s : string) :
  Forall (fun piece => Shapes.oneLine piece = true) (Js.split Js.LF s).
Proof.
  induction s as [| c s IH]; cbn [Js.split]; [now repeat constructor|].
  destruct (Ascii.eqb c Js.LF) eqn:E; [now constructor|].
  destruct (Js.split Js.LF s) as [| piece pieces].
  - constructor; [|constructor]. cbn [Shapes.oneLine]. now rewrite E.
  - inversion IH as [| ? ? Hp Hps]; subst. constructor; [|assumption].
    cbn [Shapes.oneLine]. now rewrite E, Hp.
Qed.

Lemma trimStart_oneLine (s : string) :
  Shapes.oneLine s = true -> Shapes.oneLine (Js.trimStart s) = true.
Proof.
  induction s as [| c s IH]; cbn [Js.trimStart Shapes.oneLine]; [reflexivity|].
  intros H. destruct (Js.isWhiteSpace c); [|exact H].
  apply andb_true_iff in H. now apply IH.
Qed.

Lemma trimEnd_oneLine (s : string) :
  Shapes.oneLine s = true -> Shapes.oneLine (Js.trimEnd s) = true.
Proof.
  induction s as [| c s IH]; cbn [Js.trimEnd Shapes.oneLine]; [reflexivity|].
  intros H. apply andb_true_iff in H. destruct H as [Hc Hs].
  specialize (IH Hs). destruct (Js.trimEnd s) as [| d t].
  - destruct (Js.isWhiteSpace c); [reflexivity|].
    cbn [Shapes.oneLine]. now rewrite Hc.
  - cbn [Shapes.oneLine] in IH |- *. now rewrite Hc, IH.
Qed.

Lemma split_of_oneLine (s : string) :
  Shapes.oneLine s = true -> Js.split Js.LF s = [s].
Proof.
  induction s as [| c s IH]; cbn [Js.split Shapes.oneLine]; [reflexivity|].
  intros H. apply andb_true_iff in H. destruct H as [Hc Hs].
  apply negb_true_iff in Hc. now rewrite Hc, (IH Hs).
Qed.

(** What a line of an analysis is: not empty, trimmed, without a line
    feed; such a text is its own one line. *)
Lemma linesOf_lines (text : string) :
  Forall (fun line => linesOf line = [line]) (linesOf text).
Proof.
  unfold linesOf at 2. rewrite Forall_forall. intros line Hin.
  apply filter_In in Hin. destruct Hin as [Hin Hne].
  apply in_map_iff in Hin. destruct Hin as (piece & <- & Hpiece).
  pose proof (split_oneLine text) as Hone. rewrite Forall_forall in Hone.
  specialize (Hone piece Hpiece).
  assert (H1 : Shapes.oneLine (Js.trim piece) = true)
    by (unfold Js.trim; now apply trimEnd_oneLine, trimStart_oneLine).
  unfold linesOf. rewrite (split_of_oneLine _ H1). cbn [map filter].
  now rewrite trim_idem, Hne.
Qed.

Lemma flat_map_singletons (l : list string) :
  Forall (fun line => linesOf line = [line]) l -> flat_map linesOf l = l.
Proof.
  induction 1 as [| x l Hx _ IH]; cbn [flat_map]; [reflexivity|].
  now rewrite Hx, IH.
Qed.

End TrimmedFacts.

(** X16.  The analysis both handlers send for the lines they collected:
    [urls] holds every line once and nothing else, the three counts add
    up, the count of duplicates is zero exactly when no line occurs twice,
    and the count of unique lines is zero exactly when there is no
    line. *)
Theorem analysis_counts_and_urls (lines : list string) :
  exists a,
    analysisOf lines = {| code := 200; payload := PAnalysis a |} /\
    NoDup (urls a) /\
    (forall x, In x (urls a) <-> In x lines) /\
    totalLines a = Z.of_nat (List.length lines) /\
    uniqueLines a = Z.of_nat (List.length (urls a)) /\
    totalLines a = uniqueLines a + duplicateLines a /\
    0 <= duplicateLines a /\
    (duplicateLines a = 0 <-> NoDup lines) /\
    (uniqueLines a = 0 <-> lines = []).
Proof.
  eexists. split; [reflexivity|]. cbn [urls totalLines uniqueLines duplicateLines].
  rewrite new_Set_firstOccurrences.
  pose proof (firstOccurrences_length lines) as Hle.
  repeat split.
  - apply firstOccurrences_NoDup.
  - apply firstOccurrences_In.
  - apply firstOccurrences_In.
  - lia.
  - lia.
  - intros H. apply firstOccurrences_full. lia.
  - intros H. rewrite (firstOccurrences_of_NoDup _ H). lia.
  - intros H. destruct lines; [reflexivity | cbn in H; lia].
  - intros ->. reflexivity.
Qed.

(** X17.  Merging files is analysing their texts put one after the other
    with a line feed between them: [/api/merge-files] on the files replies
    what [/api/analyze-file] replies on that one text, when the text is
    not empty. *)
Theorem merge_is_analysis_of_joined_texts (files : list string) :
  let text := Client.join (String Js.LF EmptyString) files in
  mergeFiles (Some files) = analysisOf (linesOf text) /\
  (text <> EmptyString -> mergeFiles (Some files) = analyzeFile (Some text)).
Proof.
  intros text.
  assert (E : mergeFiles (Some files) = analysisOf (linesOf text)).
  { unfold mergeFiles. rewrite push_all. cbn [app].
    subst text. now rewrite linesOf_join, lines_flat_map. }
  split; [exact E|].
  intros Hne. rewrite E. unfold analyzeFile.
  destruct text; [congruence | reflexivity].
Qed.

Lemma merge_is_analysis_of_joined_texts_witness :
  mergeFiles (Some [("a" ++ Sample.newline ++ "b")%string;
                    ("b" ++ Sample.newline ++ "c")%string]) =
  analyzeFile (Some ("a" ++ Sample.newline ++ "b" ++ Sample.newline
                       ++ "b" ++ Sample.newline ++ "c")%string).
Proof.
  refine (proj2 (merge_is_analysis_of_joined_texts
                   [("a" ++ Sample.newline ++ "b")%string;
                    ("b" ++ Sample.newline ++ "c")%string]) _).
  discriminate.
Defined.

(** X18.  A cleaned file is clean: when the unique lines an analysis sent
    are written to a file, one per line, as the download buttons do, the
    analysis of that file finds the same lines in the same order and no
    duplicate. *)
Theorem cleaned_file_is_clean (files : list string) (a : FileAnalysis) :
  mergeFiles (Some files) = {| code := 200; payload := PAnalysis a |} ->
  mergeFiles (Some [Client.downloadContent a]) =
  {| code := 200;
     payload := PAnalysis {| totalLines := uniqueLines a;
                             uniqueLines := uniqueLines a;
                             duplicateLines := 0;
                             urls := urls a |} |}.
Proof.
  unfold mergeFiles at 1. rewrite push_all. cbn [app].
  unfold analysisOf at 1. intros [= <-].
  cbn [urls uniqueLines Client.downloadContent].
  set (unique := Js.new_Set (Spec.lines files)).
  assert (Hlines : Forall (fun line => linesOf line = [line]) unique).
  { subst unique. rewrite new_Set_firstOccurrences, Forall_forall.
    intros line Hin. apply (proj1 (firstOccurrences_In _ _)) in Hin.
    rewrite lines_flat_map in Hin. apply in_flat_map in Hin.
    destruct Hin as (file & _ & Hin).
    pose proof (linesOf_lines file) as H. rewrite Forall_forall in H.
    now apply H. }
  assert (Hsame : linesOf (Client.join (String Js.LF EmptyString) unique) = unique)
    by (rewrite linesOf_join; now apply flat_map_singletons).
  assert (Hset : Js.new_Set unique = unique).
  { rewrite new_Set_firstOccurrences. apply firstOccurrences_of_NoDup.
    subst unique. rewrite new_Set_firstOccurrences. apply firstOccurrences_NoDup. }
  unfold mergeFiles. cbn [fold_left app].
  unfold Client.downloadContent. cbn [urls]. rewrite Hsame.
  unfold analysisOf. rewrite Hset. do 3 f_equal. lia.
Qed.

Lemma cleaned_file_is_clean_witness :
  mergeFiles (Some [Client.downloadContent
                      {| totalLines := 5; uniqueLines := 3; duplicateLines := 2;
                         urls := ["a"; "b"; "c"] |}]) =
  {| code := 200;
     payload := PAnalysis {| totalLines := 3; uniqueLines := 3;
                             duplicateLines := 0; urls := ["a"; "b"; "c"] |} |}.
Proof.
  refine (cleaned_file_is_clean [Sample.blob] _ _). reflexivity.
Defined.

(** X19.  The switch for preserving the order of the lines makes no
    difference to the cleaned file: filtering the lines of the uploaded
    text through the set of lines seen gives the very list the analysis
    of that text carries, which is in the order of first occurrence and
    not sorted. *)
Theorem preserve_order_makes_no_difference (text : string) (a : FileAnalysis) :
  analyzeFile (Some text) = {| code := 200; payload := PAnalysis a |} ->
  Client.cleanedContent true text a = Client.cleanedContent false text a /\
  Client.cleanedContent false text a =
  Client.join (String Js.LF EmptyString) (Spec.firstOccurrences (linesOf text)).
Proof.
  unfold analyzeFile. destruct text as [| c text]; [discriminate|].
  cbn [Js.truthy negb]. unfold analysisOf. intros [= <-].
  unfold Client.cleanedContent. cbn [urls].
  fold (linesOf (String c text)).
  rewrite filterUnseen_new_Set, new_Set_firstOccurrences. now split.
Qed.

Lemma preserve_order_makes_no_difference_witness :
  let text := ("b" ++ Sample.newline ++ "a" ++ Sample.newline ++ "b")%string in
  let a := {| totalLines := 3; uniqueLines := 2; duplicateLines := 1;
              urls := ["b"; "a"] |} in
  Client.cleanedContent true text a = Client.cleanedContent false text a /\
  Client.cleanedContent false text a = ("b" ++ Sample.newline ++ "a")%string.
Proof.
  intros text a.
  refine (preserve_order_makes_no_difference text a _). reflexivity.
Defined.

(** X20.  The text-to-file page refuses exactly the texts of white space
    only.  For every other text it computes the analysis the server
    computes for it, and that analysis has at least one line.  The server
    does not refuse a text of white space that is not empty: it finds no
    line in it. *)
Theorem analyzeText_refuses_blank_text (textInput : string) :
  (Client.analyzeText textInput = None <-> Shapes.blank textInput = true) /\
  (forall a, Client.analyzeText textInput = Some a ->
             analyzeFile (Some textInput) = {| code := 200; payload := PAnalysis a |} /\
             1 <= uniqueLines a <= totalLines a) /\
  (Shapes.blank textInput = true -> textInput <> EmptyString ->
   analyzeFile (Some textInput) =
   {| code := 200;
      payload := PAnalysis {| totalLines := 0; uniqueLines := 0;
                              duplicateLines := 0; urls := [] |} |}).
Proof.
  assert (Hguard : Js.truthy (Js.trim textInput) = false <->
                   Shapes.blank textInput = true).
  { rewrite <- trim_blank. destruct (Js.trim textInput); split;
      try reflexivity; discriminate. }
  split; [|split].
  - unfold Client.analyzeText.
    destruct (Js.truthy (Js.trim textInput)) eqn:T; cbn [negb].
    + split; [discriminate|]. intros B. apply Hguard in B. discriminate.
    + split; [intros _; now apply Hguard | reflexivity].
  - intros a. unfold Client.analyzeText.
    destruct (Js.truthy (Js.trim textInput)) eqn:T; cbn [negb]; [|discriminate].
    fold (linesOf textInput). intros [= <-].
    assert (Hne : linesOf textInput <> []).
    { intros H. apply linesOf_nil_iff, Hguard in H. congruence. }
    split.
    + unfold analyzeFile. destruct textInput; [discriminate | reflexivity].
    + cbn [uniqueLines totalLines]. rewrite new_Set_firstOccurrences.
      pose proof (firstOccurrences_length (linesOf textInput)).
      destruct (linesOf textInput) as [| x l]; [contradiction|].
      cbn [Spec.firstOccurrences List.length] in *. lia.
  - intros B Hne. unfold analyzeFile.
    destruct textInput as [| c t]; [contradiction|]. cbn [Js.truthy negb].
    apply linesOf_nil_iff in B. now rewrite B.
Qed.

Lemma analyzeText_refuses_blank_text_witness :
  Client.analyzeText ("  " ++ Sample.newline ++ " ")%string = None /\
  analyzeFile (Some ("  " ++ Sample.newline ++ " ")%string) =
  {| code := 200;
     payload := PAnalysis {| totalLines := 0; uniqueLines := 0;
                             duplicateLines := 0; urls := [] |} |}.
Proof.
  split.
  - apply (proj1 (analyzeText_refuses_blank_text _)). reflexivity.
  - apply (proj2 (proj2 (analyzeText_refuses_blank_text _)));
      [reflexivity | discriminate].
Defined.

Section PageFacts.

Lemma minutes_of_hours (d : Z) : d / 60000 / 60 = d / 3600000.
Proof. rewrite Z.div_div by lia. reflexivity. Qed.

Lemma hours_of_days (d : Z) : d / 60000 / 60 / 24 = d / 86400000.
Proof. rewrite !Z.div_div by lia. reflexivity. Qed.

Lemma filterByIndex_past {A : Type} (index : Z) (l : list A) (i : Z) :
  index < i -> Client.filterByIndex (fun j => negb (j =? index)) i l = l.
Proof.
  revert i. induction l as [| x l IH]; intros i Hi; [reflexivity|].
  cbn [Client.filterByIndex]. destruct (Z.eqb_spec i index); [lia|].
  cbn [negb]. f_equal. apply IH. lia.
Qed.

Lemma filterByIndex_from {A : Type} (index : Z) (l : list A) (i : Z) :
  i <= index ->
  Client.filterByIndex (fun j => negb (j =? index)) i l =
  firstn (Z.to_nat (index - i)) l ++ skipn (S (Z.to_nat (index - i))) l.
Proof.
  revert i. induction l as [| x l IH]; intros i Hi.
  - now rewrite firstn_nil, skipn_nil.
  - cbn [Client.filterByIndex]. destruct (Z.eqb_spec i index) as [-> | Hne].
    + cbn [negb]. rewrite Z.sub_diag. cbn [Z.to_nat firstn skipn app].
      apply filterByIndex_past. lia.
    + cbn [negb]. rewrite (IH (i + 1)) by lia.
      replace (Z.to_nat (index - i)) with (S (Z.to_nat (index - (i + 1)))) by lia.
      reflexivity.
Qed.

End PageFacts.

(** X21.  [getTimeAgo] counts whole units: below one minute, and for a
    time that lies ahead, it says [just now]; from one minute to below one
    hour it gives the whole minutes, from one hour to below one day the
    whole hours, and from one day on the whole days, each count being the
    difference divided by the length of its unit and rounded down, with
    the plural for a count above one. *)
Theorem getTimeAgo_counts_whole_units (now timestamp : Z) :
  (now - timestamp < 60000 ->
   Client.getTimeAgo now timestamp = "just now") /\
  (60000 <= now - timestamp < 3600000 ->
   Client.getTimeAgo now timestamp =
   Shapes.ago ((now - timestamp) / 60000) "minute" /\
   1 <= (now - timestamp) / 60000 <= 59) /\
  (3600000 <= now - timestamp < 86400000 ->
   Client.getTimeAgo now timestamp =
   Shapes.ago ((now - timestamp) / 3600000) "hour" /\
   1 <= (now - timestamp) / 3600000 <= 23) /\
  (86400000 <= now - timestamp ->
   Client.getTimeAgo now timestamp =
   Shapes.ago ((now - timestamp) / 86400000) "day" /\
   1 <= (now - timestamp) / 86400000).
Proof.
  unfold Client.getTimeAgo, Shapes.ago.
  rewrite hours_of_days, minutes_of_hours.
  set (d := now - timestamp).
  assert (Hm : forall k, d / 60000 < k <-> d < 60000 * k).
  { intros k. split; intros H.
    - destruct (Z.lt_ge_cases d (60000 * k)) as [Hlt | Hge]; [exact Hlt|].
      apply Z.div_le_lower_bound in Hge; lia.
    - apply Z.div_lt_upper_bound; lia. }
  assert (Hh : forall k, d / 3600000 < k <-> d < 3600000 * k).
  { intros k. split; intros H.
    - destruct (Z.lt_ge_cases d (3600000 * k)) as [Hlt | Hge]; [exact Hlt|].
      apply Z.div_le_lower_bound in Hge; lia.
    - apply Z.div_lt_upper_bound; lia. }
  assert (Hd : 1 <= d / 86400000 <-> 86400000 <= d).
  { split; intros H.
    - destruct (Z.lt_ge_cases d 86400000) as [Hlt | Hge]; [|exact Hge].
      apply (Z.div_lt_upper_bound d 86400000 1) in Hlt; lia.
    - apply Z.div_le_lower_bound; lia. }
  pose proof (Hm 1) as Hm1. pose proof (Hm 60) as Hm60.
  pose proof (Hh 1) as Hh1. pose proof (Hh 24) as Hh24.
  repeat split.
  - intros H. destruct (Z.ltb_spec (d / 60000) 1); [reflexivity | lia].
  - destruct (Z.ltb_spec (d / 60000) 1); [lia|].
    destruct (Z.ltb_spec (d / 60000) 60); [reflexivity | lia].
  - lia.
  - lia.
  - destruct (Z.ltb_spec (d / 60000) 1); [lia|].
    destruct (Z.ltb_spec (d / 60000) 60); [lia|].
    destruct (Z.ltb_spec (d / 3600000) 24); [reflexivity | lia].
  - lia.
  - lia.
  - destruct (Z.ltb_spec (d / 60000) 1); [lia|].
    destruct (Z.ltb_spec (d / 60000) 60); [lia|].
    destruct (Z.ltb_spec (d / 3600000) 24); [lia | reflexivity].
  - lia.
Qed.

Lemma getTimeAgo_counts_whole_units_witness :
  Client.getTimeAgo 1000 5000 = "just now" /\
  Client.getTimeAgo 119999 0 = "1 minute ago" /\
  Client.getTimeAgo 7200000 0 = "2 hours ago" /\
  Client.getTimeAgo 86400000 0 = "1 day ago".
Proof.
  split; [|split; [|split]].
  - apply (proj1 (getTimeAgo_counts_whole_units 1000 5000)). lia.
  - apply (proj1 (proj1 (proj2 (getTimeAgo_counts_whole_units 119999 0)) ltac:(lia))).
  - apply (proj1 (proj1 (proj2 (proj2 (getTimeAgo_counts_whole_units 7200000 0)))
                        ltac:(lia))).
  - apply (proj1 (proj2 (proj2 (proj2 (getTimeAgo_counts_whole_units 86400000 0)))
                        ltac:(lia))).
Defined.

(** X22.  [removeFile] takes out the file at the index and keeps the
    others in their order; with an index outside the list it leaves the
    list as it is. *)
Theorem removeFile_takes_out_one_file
    {A : Type} (index : Z) (files : list A) (mergeResult : option FileAnalysis) :
  (0 <= index < Z.of_nat (List.length files) ->
   fst (Client.removeFile index files mergeResult) =
   firstn (Z.to_nat index) files ++ skipn (S (Z.to_nat index)) files /\
   S (List.length (fst (Client.removeFile index files mergeResult))) =
   List.length files) /\
  (index < 0 \/ Z.of_nat (List.length files) <= index ->
   fst (Client.removeFile index files mergeResult) = files).
Proof.
  unfold Client.removeFile. cbn [fst]. split.
  - intros Hin.
    rewrite (filterByIndex_from index files 0) by lia. rewrite Z.sub_0_r.
    split; [reflexivity|].
    rewrite length_app, length_firstn, length_skipn. lia.
  - intros [Hneg | Hpast].
    + apply filterByIndex_past. lia.
    + rewrite (filterByIndex_from index files 0) by lia. rewrite Z.sub_0_r.
      rewrite firstn_all2 by lia. rewrite skipn_all2 by lia.
      apply app_nil_r.
Qed.

Lemma removeFile_takes_out_one_file_witness :
  fst (Client.removeFile 1 ["a.txt"; "b.txt"; "c.txt"] None) = ["a.txt"; "c.txt"] /\
  fst (Client.removeFile 3 ["a.txt"; "b.txt"; "c.txt"] None) =
  ["a.txt"; "b.txt"; "c.txt"].
Proof.
  split.
  - apply (proj1 (proj1 (removeFile_takes_out_one_file 1 ["a.txt"; "b.txt"; "c.txt"] None)
                        ltac:(simpl; lia))).
  - apply (proj2 (removeFile_takes_out_one_file 3 ["a.txt"; "b.txt"; "c.txt"] None)).
    right. simpl. lia.
Defined.

(** X23.  [downloadResolvedUrls] offers no file for an empty list and one
    for every other list.  The name of the file is never empty and has no
    white space around it: the name typed in, trimmed, or [links.txt] for
    a name of white space only.  The content is the resolved URLs in the
    order of the list, with a line feed between them. *)
Theorem downloadResolvedUrls_names_the_file
    (resolvedUrls : list ResolvedUrl) (filename : string) :
  (Client.downloadResolvedUrls resolvedUrls filename = None <-> resolvedUrls = []) /\
  (forall name content,
      Client.downloadResolvedUrls resolvedUrls filename = Some (name, content) ->
      name <> EmptyString /\ Js.trim name = name /\
      (Shapes.blank filename = true -> name = "links.txt") /\
      (Shapes.blank filename = false -> name = Js.trim filename) /\
      content = Client.join (String Js.LF EmptyString)
                            (map resolvedUrl resolvedUrls)).
Proof.
  unfold Client.downloadResolvedUrls. split.
  - destruct resolvedUrls as [| r l]; [now split|].
    destruct (Z.eqb_spec (Z.of_nat (List.length (r :: l))) 0) as [E | _].
    + cbn [List.length] in E. lia.
    + split; discriminate.
  - intros name content.
    destruct (Z.of_nat (List.length resolvedUrls) =? 0); [discriminate|].
    intros [= <- <-].
    destruct (Js.truthy (Js.trim filename)) eqn:T.
    + assert (B : Shapes.blank filename = false).
      { destruct (Shapes.blank filename) eqn:B; [|reflexivity].
        apply trim_blank in B. rewrite B in T. discriminate. }
      repeat split.
      * intros E. rewrite E in T. discriminate.
      * apply trim_idem.
      * congruence.
    + assert (B : Shapes.blank filename = true).
      { apply trim_blank. destruct (Js.trim filename); [reflexivity | discriminate]. }
      repeat split; congruence.
Qed.

Lemma downloadResolvedUrls_names_the_file_witness :
  Client.downloadResolvedUrls
    [mkResolvedUrl 2 "b" "https://b/" 6; mkResolvedUrl 1 "a" "https://a/" 5] "  " <>
  None.
Proof.
  intros H.
  apply (proj1 (proj1 (downloadResolvedUrls_names_the_file _ _))) in H.
  discriminate H.
Defined.
